(** * scrape_survivor_items: category traversal and page-content extraction

    A shallow embedding of [scripts/scrape_survivor_items.py].

    Modelling choices, used throughout:
    - a Python [str] is a [string]; a character is a code point below 256
      (the Latin-1 range), so [str.lower], [str.isspace], the regular
      expression classes [\s] and [\d] and [urllib.parse.quote] are the
      Python ones restricted to that range;
    - [Optional[T]] is [option T], a Python [int] is an [N];
    - a parsed HTML document is a forest of [node]s (text or element);
      the HTML parser itself (BeautifulSoup over lxml) is a parameter;
    - the remote API is a parameter (page rendering) or a finite map
      (category membership);
    - an exception is a value of [result]; [time.sleep] has no effect on
      any value and is left out. *)

From Stdlib Require Import Ascii String NArith ZArith Lia.
From stdpp Require Import base option list gmap sets strings sorting.

Local Open Scope N_scope.

(** ** Python [str] operations *)

Module PyStr.

Definition code (c : ascii) : N := N_of_ascii c.

Definition between (lo hi : N) (c : ascii) : bool :=
  (lo <=? code c) && (code c <=? hi).

(** [str.isspace] on one character, which is also the class [\s]:
    TAB..CR, FS..US, SPACE, NEL and NBSP. *)
Definition is_space (c : ascii) : bool :=
  between 9 13 c || between 28 32 c || (code c =? 133) || (code c =? 160).

(** The class [\d]. *)
Definition is_digit (c : ascii) : bool := between 48 57 c.

(** [str.lower] on one character: A..Z and the Latin-1 capitals
    (0xC0..0xDE except the multiplication sign 0xD7) move up by 32. *)
Definition lower_char (c : ascii) : ascii :=
  if between 65 90 c || (between 192 222 c && negb (code c =? 215))
  then ascii_of_N (code c + 32) else c.

Fixpoint lower (s : string) : string :=
  match s with
  | "" => ""
  | String c s' => String (lower_char c) (lower s')
  end.

Fixpoint lstrip (s : string) : string :=
  match s with
  | "" => ""
  | String c s' => if is_space c then lstrip s' else s
  end.

Fixpoint rstrip (s : string) : string :=
  match s with
  | "" => ""
  | String c s' =>
      match rstrip s' with
      | "" => if is_space c then "" else String c ""
      | r => String c r
      end
  end.

(** [s.strip()] *)
Definition strip (s : string) : string := rstrip (lstrip s).

Definition starts_nonspace (s : string) : bool :=
  match s with
  | "" => false
  | String c _ => negb (is_space c)
  end.

(** [s.split()]: the maximal runs of non-whitespace characters. *)
Fixpoint split (s : string) : list string :=
  match s with
  | "" => []
  | String c s' =>
      if is_space c then split s'
      else if starts_nonspace s' then
        match split s' with
        | w :: ws => String c w :: ws
        | [] => [String c ""]
        end
      else String c "" :: split s'
  end.

(** [sep.join(parts)] *)
Definition join (sep : string) (parts : list string) : string :=
  String.concat sep parts.

(** [needle in hay] *)
Fixpoint contains (needle hay : string) : bool :=
  String.prefix needle hay ||
  match hay with
  | "" => false
  | String _ hay' => contains needle hay'
  end.

(** [c in s] for one character. *)
Fixpoint has_char (c : ascii) (s : string) : bool :=
  match s with
  | "" => false
  | String d s' => Ascii.eqb c d || has_char c s'
  end.

(** [s.startswith(p)] *)
Definition startswith (p s : string) : bool := String.prefix p s.

(** [s.endswith(suf)] *)
Fixpoint endswith (suf s : string) : bool :=
  String.eqb s suf ||
  match s with
  | "" => false
  | String _ s' => endswith suf s'
  end.

(** [s.replace(old, new)] for one-character [old] and [new]. *)
Fixpoint replace_char (old new : ascii) (s : string) : string :=
  match s with
  | "" => ""
  | String c s' =>
      String (if Ascii.eqb c old then new else c) (replace_char old new s')
  end.

(** [s.replace(old, empty)] for a one-character [old]. *)
Fixpoint remove_char (old : ascii) (s : string) : string :=
  match s with
  | "" => ""
  | String c s' =>
      if Ascii.eqb c old then remove_char old s'
      else String c (remove_char old s')
  end.

(** [s[:-k]] for [k > 0]. *)
Definition drop_last (k : nat) (s : string) : string :=
  String.substring 0 (String.length s - k) s.

(** [int(s)] for a string of decimal digits. *)
Definition digit_value (c : ascii) : N := code c - 48.

Fixpoint int_acc (acc : N) (s : string) : N :=
  match s with
  | "" => acc
  | String c s' => int_acc (10 * acc + digit_value c) s'
  end.

Definition int (s : string) : N := int_acc 0 s.

(** The truth value of a string: [bool(s)]. *)
Definition truthy (s : string) : bool :=
  match s with "" => false | _ => true end.

(** [s or None] *)
Definition or_none (s : string) : option string :=
  if truthy s then Some s else None.

End PyStr.

(** ** Regular expressions

    The three patterns of the script are sequences of character classes,
    each taken once or under a greedy star ([c+] is [c c*]).  [re_match]
    is the backtracking matcher anchored at the start of the input; it
    returns the text each atom matched, from which a group is read off. *)

Module Re.

Inductive atom : Type :=
| One (cls : ascii -> bool)
| Star (cls : ascii -> bool).

Definition pattern : Type := list atom.

Definition cons_head (c : ascii) (r : option (list string)) : option (list string) :=
  match r with
  | Some (m :: ms) => Some (String c m :: ms)
  | _ => None
  end.

Definition cons_group (r : option (list string)) : option (list string) :=
  match r with
  | Some ms => Some ("" :: ms)
  | None => None
  end.

Fixpoint re_match (p : pattern) : string -> option (list string) :=
  match p with
  | [] => fun _ => Some []
  | One cls :: p' => fun s =>
      match s with
      | "" => None
      | String c s' =>
          if cls c then
            match re_match p' s' with
            | Some ms => Some (String c "" :: ms)
            | None => None
            end
          else None
      end
  | Star cls :: p' =>
      fix star (s : string) : option (list string) :=
        match s with
        | "" => cons_group (re_match p' "")
        | String c s' =>
            if cls c then
              match cons_head c (star s') with
              | Some ms => Some ms
              | None => cons_group (re_match p' s)
              end
            else cons_group (re_match p' s)
        end
  end.

(** Length of a whole match. *)
Definition match_length (ms : list string) : nat :=
  sum_list (String.length <$> ms).

(** [re.search(p, s)]: the matched atoms at the leftmost position where
    the pattern matches. *)
Fixpoint search (p : pattern) (s : string) : option (list string) :=
  match re_match p s with
  | Some ms => Some ms
  | None =>
      match s with
      | "" => None
      | String _ s' => search p s'
      end
  end.

(** [re.sub(p, repl, s)] for a pattern that never matches the empty
    string: leftmost matches, not overlapping.  [skip] counts the
    characters of the current match still to be passed over. *)
Fixpoint sub_go (p : pattern) (repl : list string -> string)
    (skip : nat) (s : string) : string :=
  match s with
  | "" => ""
  | String c s' =>
      match skip with
      | S k => sub_go p repl k s'
      | O =>
          match re_match p s with
          | Some ms => repl ms +:+ sub_go p repl (pred (match_length ms)) s'
          | None => String c (sub_go p repl 0 s')
          end
      end
  end.

Definition sub (p : pattern) (repl : list string -> string) (s : string) : string :=
  sub_go p repl 0 s.

(** The text matched by the [i]-th atom. *)
Definition atom_text (i : nat) (ms : list string) : string :=
  default "" (ms !! i).

(** The text matched by the atoms from the [i]-th on. *)
Definition text_from (i : nat) (ms : list string) : string :=
  String.concat "" (drop i ms).

End Re.

(** ** Text normalisation *)

Definition is_punct (c : ascii) : bool :=
  PyStr.has_char c ",.;:!?%".

(** Whitespace, then one of the seven punctuation marks as group 1. *)
Definition _SPACE_BEFORE_PUNCT_RE : Re.pattern :=
  [Re.One PyStr.is_space; Re.Star PyStr.is_space; Re.One is_punct].

(** A run of whitespace. *)
Definition _MULTISPACE_RE : Re.pattern :=
  [Re.One PyStr.is_space; Re.Star PyStr.is_space].

Definition clean_text (s : option string) : option string :=
  match s with
  | None => None
  | Some s =>
      let s := PyStr.strip (Re.sub _MULTISPACE_RE (fun _ => " ") s) in
      let s := Re.sub _SPACE_BEFORE_PUNCT_RE (Re.atom_text 2) s in
      PyStr.or_none s
  end.

(** ** Parsed HTML

    A document is a forest of nodes.  A [tag] is an element together with
    what a CSS selector may look at around it: the names of its ancestors
    (nearest first) and the name of the element sibling just before it. *)

#[local] Unset Elimination Schemes.
Inductive node : Type :=
| Text (s : string)
| Element (name : string) (attrs : gmap string string) (children : list node).
#[local] Set Elimination Schemes.

Record tag : Type := Tag {
  tag_parents : list string;
  tag_prev : option string;
  tag_name : string;
  tag_attrs : gmap string string;
  tag_children : list node;
}.

Module Soup.

(** The element sibling seen last, after passing node [n]. *)
Definition next_prev (prev : option string) (n : node) : option string :=
  match n with
  | Text _ => prev
  | Element nm _ _ => Some nm
  end.

(** All elements of a subtree in document order (an element comes before
    its descendants), each with its surroundings. *)
Fixpoint node_tags (parents : list string) (prev : option string) (n : node)
    : list tag :=
  match n with
  | Text _ => []
  | Element nm at_ ch =>
      Tag parents prev nm at_ ch ::
      (fix siblings (prev' : option string) (l : list node) : list tag :=
         match l with
         | [] => []
         | x :: l' =>
             node_tags (nm :: parents) prev' x ++ siblings (next_prev prev' x) l'
         end) None ch
  end.

Fixpoint forest_tags (parents : list string) (prev : option string)
    (l : list node) : list tag :=
  match l with
  | [] => []
  | x :: l' => node_tags parents prev x ++ forest_tags parents (next_prev prev x) l'
  end.

(** [tag.descendants], elements only. *)
Definition descendants (t : tag) : list tag :=
  forest_tags (tag_name t :: tag_parents t) None (tag_children t).

(** The element children of a tag. *)
Fixpoint child_tags (parents : list string) (prev : option string)
    (l : list node) : list tag :=
  match l with
  | [] => []
  | Text _ :: l' => child_tags parents prev l'
  | Element nm at_ ch :: l' =>
      Tag parents prev nm at_ ch :: child_tags parents (Some nm) l'
  end.

(** [tag.find_all(names, recursive=False)] *)
Definition find_children (names : list string) (t : tag) : list tag :=
  filter (fun c => tag_name c ∈ names)
         (child_tags (tag_name t :: tag_parents t) None (tag_children t)).

(** [tag.find_all(name)] and [tag.select(name)] *)
Definition find_all (name : string) (t : tag) : list tag :=
  filter (fun c => tag_name c = name) (descendants t).

(** [tag.find(name)] and [tag.select_one(name)] *)
Definition find (name : string) (t : tag) : option tag :=
  head (find_all name t).

(** The text strings below a node, in document order. *)
Fixpoint strings (n : node) : list string :=
  match n with
  | Text s => [s]
  | Element _ _ ch =>
      (fix go (l : list node) : list string :=
         match l with
         | [] => []
         | x :: l' => strings x ++ go l'
         end) ch
  end.

Fixpoint forest_strings (l : list node) : list string :=
  match l with
  | [] => []
  | x :: l' => strings x ++ forest_strings l'
  end.

(** [tag.get_text(sep, strip=True)]: every string stripped, the empty ones
    dropped, the rest joined by [sep]. *)
Definition stripped_strings (l : list node) : list string :=
  filter (fun s => PyStr.truthy s) (PyStr.strip <$> forest_strings l).

Definition get_text (sep : string) (t : tag) : string :=
  PyStr.join sep (stripped_strings (tag_children t)).

(** [tag.get(key)] *)
Definition get (key : string) (t : tag) : option string :=
  tag_attrs t !! key.

(** [tag.get(key)], with the empty string for a missing value. *)
Definition get_or_empty (key : string) (t : tag) : string :=
  default "" (get key t).

(** The class list of a tag: the [class] attribute split at whitespace. *)
Definition classes (t : tag) : list string :=
  PyStr.split (get_or_empty "class" t).

(** [soup.select_one] for the selector [table.wikitable], on a whole
    document. *)
Definition is_wikitable (t : tag) : bool :=
  bool_decide (tag_name t = "table") && bool_decide ("wikitable" ∈ classes t).

Definition select_wikitable (soup : list node) : option tag :=
  head (filter (fun t => is_wikitable t) (forest_tags [] None soup)).

(** [table.select_one] for the selector [tbody tr + tr]: a [tr] that
    directly follows a [tr] sibling and lies below some [tbody]. *)
Definition is_tbody_tr_tr (t : tag) : bool :=
  bool_decide (tag_name t = "tr") && bool_decide (tag_prev t = Some "tr")
  && bool_decide ("tbody" ∈ tag_parents t).

Definition select_tbody_tr_tr (table : tag) : option tag :=
  head (filter (fun t => is_tbody_tr_tr t) (descendants table)).

(** [cell.select] for the selector [p i]: the [i] elements below some
    [p]. *)
Definition is_p_i (t : tag) : bool :=
  bool_decide (tag_name t = "i") && bool_decide ("p" ∈ tag_parents t).

Definition select_p_i (cell : tag) : list tag :=
  filter (fun t => is_p_i t) (descendants cell).

End Soup.

(** ** Cost cell *)

Record ParsedCost : Type := mkParsedCost {
  amount : option N;
  currency : option string;
}.

Definition _CURRENCY_HINTS : list (string * string) :=
  [ ("bloodpoints", "bloodpoints");
    ("bp", "bloodpoints");
    ("iridescent shards", "iridescent_shards");
    ("shards", "iridescent_shards");
    ("auric cells", "auric_cells");
    ("cells", "auric_cells") ].

(** The body of the loop over the images of the cell: the currency one
    image gives, if any. *)
Definition image_blob (img : tag) : string :=
  let alt := PyStr.lower (Soup.get_or_empty "alt" img) in
  let src := PyStr.lower (Soup.get_or_empty "src" img) in
  alt +:+ " " +:+ src.

Definition image_currency (img : tag) : option string :=
  let blob := image_blob img in
  if PyStr.contains "bloodpoints" blob then Some "bloodpoints"
  else if PyStr.contains "shards" blob then Some "iridescent_shards"
  else if PyStr.contains "auric" blob || PyStr.contains "cells" blob
       then Some "auric_cells"
  else None.

Fixpoint scan_images (imgs : list tag) : option string :=
  match imgs with
  | [] => None
  | img :: rest =>
      match image_currency img with
      | Some c => Some c
      | None => scan_images rest
      end
  end.

Fixpoint scan_hints (hints : list (string * string)) (lower : string)
    : option string :=
  match hints with
  | [] => None
  | (needle, mapped) :: rest =>
      if PyStr.contains needle lower then Some mapped
      else scan_hints rest lower
  end.

Definition is_digit_or_comma (c : ascii) : bool :=
  PyStr.is_digit c || Ascii.eqb c ",".

(** The pattern of the amount: a digit, then digits and commas. *)
Definition _AMOUNT_RE : Re.pattern :=
  [Re.One PyStr.is_digit; Re.Star is_digit_or_comma].

Definition cell_text (td : tag) : string :=
  PyStr.join " " (PyStr.split (Soup.get_text " " td)).

Definition parse_cost_cell (td : option tag) : ParsedCost :=
  match td with
  | None => mkParsedCost None None
  | Some td =>
      let text := cell_text td in
      let currency :=
        match scan_images (Soup.find_all "img" td) with
        | Some c => Some c
        | None => scan_hints _CURRENCY_HINTS (PyStr.lower text)
        end in
      let amount :=
        match Re.search _AMOUNT_RE text with
        | Some ms => Some (PyStr.int (PyStr.remove_char "," (Re.text_from 0 ms)))
        | None => None
        end in
      mkParsedCost amount currency
  end.

(** ** Description cell *)

Record description : Type := mkDescription {
  summary : option string;
  effects : list string;
  flavor_text : option string;
  raw_text : option string;
}.

Definition no_description : description := mkDescription None [] None None.

(** The truth value of an [Optional[str]]. *)
Definition truthy_opt (o : option string) : bool :=
  match o with
  | Some s => PyStr.truthy s
  | None => false
  end.

Definition is_ul (n : node) : bool :=
  match n with
  | Element nm _ _ => bool_decide (nm = "ul")
  | Text _ => false
  end.

(** The text one child of the cell contributes: an element gives its
    [get_text], a bare string is stripped. *)
Definition child_text (n : node) : string :=
  match n with
  | Element nm at_ ch => Soup.get_text " " (Tag [] None nm at_ ch)
  | Text s => PyStr.strip s
  end.

(** The loop over [desc_td.children], left at the first child that is a
    [ul]. *)
Fixpoint summary_parts (children : list node) : list string :=
  match children with
  | [] => []
  | n :: rest =>
      if is_ul n then []
      else
        let txt := clean_text (Some (child_text n)) in
        if truthy_opt txt then default "" txt :: summary_parts rest
        else summary_parts rest
  end.

(** The loop over [ul.find_all] for [li]. *)
Fixpoint effect_texts (items : list tag) : list string :=
  match items with
  | [] => []
  | li :: rest =>
      let li_txt := clean_text (Some (Soup.get_text " " li)) in
      if truthy_opt li_txt then default "" li_txt :: effect_texts rest
      else effect_texts rest
  end.

(** The double quotation mark, character 34. *)
Definition quotation_mark : ascii := ascii_of_N 34.

(** The loop over the italic elements, left at the first one whose text
    holds a quotation mark. *)
Fixpoint scan_flavor (itals : list tag) : option string :=
  match itals with
  | [] => None
  | ital :: rest =>
      let t := clean_text (Some (Soup.get_text " " ital)) in
      if truthy_opt t && PyStr.has_char quotation_mark (default "" t)
      then Some (PyStr.strip (default "" t))
      else scan_flavor rest
  end.

Definition extract_description_parts (desc_td : option tag) : description :=
  match desc_td with
  | None => no_description
  | Some desc_td =>
      let ul := Soup.find "ul" desc_td in
      let parts :=
        match ul with
        | Some _ => summary_parts (tag_children desc_td)
        | None => []
        end in
      let effects :=
        match ul with
        | Some ul => effect_texts (Soup.find_all "li" ul)
        | None => []
        end in
      let flavor := scan_flavor (Soup.select_p_i desc_td) in
      let raw := clean_text (Some (Soup.get_text " " desc_td)) in
      let summary := clean_text (Some (PyStr.join " " parts)) in
      let flavor := clean_text flavor in
      mkDescription summary effects flavor raw
  end.

(** ** Item page *)

Definition WIKI_BASE : string := "https://deadbydaylight.wiki.gg".

Definition normalize_category_name (cat : string) : string :=
  PyStr.strip (PyStr.replace_char "_" " " cat).

Definition join_url (path_or_url : string) : string :=
  if negb (PyStr.truthy path_or_url) then path_or_url
  else if PyStr.startswith "http://" path_or_url
          || PyStr.startswith "https://" path_or_url then path_or_url
  else if PyStr.startswith "/" path_or_url then WIKI_BASE +:+ path_or_url
  else WIKI_BASE +:+ "/" +:+ path_or_url.

(** [urllib.parse.quote] with its default safe set: letters, digits and
    the marks [_ . - ~ /] stay, every other character is written as the
    bytes of its UTF-8 encoding, each as a percent sign and two capital
    hexadecimal digits. *)
Module Quote.

Definition is_safe (c : ascii) : bool :=
  PyStr.between 65 90 c || PyStr.between 97 122 c || PyStr.between 48 57 c
  || PyStr.has_char c "_.-~/".

Definition hex_digit (n : N) : ascii :=
  if n <? 10 then ascii_of_N (48 + n) else ascii_of_N (55 + n).

Definition percent (byte : N) : string :=
  String "%" (String (hex_digit (byte / 16)) (String (hex_digit (byte mod 16)) "")).

Definition utf8 (c : ascii) : list N :=
  let n := PyStr.code c in
  if n <? 128 then [n] else [192 + n / 64; 128 + n mod 64].

Definition quote_char (c : ascii) : string :=
  if is_safe c then String c ""
  else String.concat "" (percent <$> utf8 c).

Fixpoint quote (s : string) : string :=
  match s with
  | "" => ""
  | String c s' => quote_char c +:+ quote s'
  end.

End Quote.

Definition canonical_page_url (title : string) : string :=
  WIKI_BASE +:+ "/wiki/" +:+ Quote.quote (PyStr.replace_char " " "_" title).

(** The loop that infers the rarity from the categories. *)
Definition is_rarity_category (c : string) : bool :=
  PyStr.endswith " items" (PyStr.lower c)
  && negb (bool_decide (PyStr.lower c ∈ ["items"])).

Fixpoint infer_rarity (cats : list string) : option string :=
  match cats with
  | [] => None
  | c :: rest =>
      if is_rarity_category c
      then Some (PyStr.strip (PyStr.drop_last (String.length " items") c))
      else infer_rarity rest
  end.

Record item : Type := mkItem {
  item_title : string;
  wiki_url : string;
  rarity : option string;
  icon_url : option string;
  cost : ParsedCost;
  item_description : description;
  categories : list string;
}.

(** Exceptions and results. *)
Inductive exn : Type :=
| FetchError (msg : string).

Inductive result (A : Type) : Type :=
| Ok (a : A)
| Raise (e : exn).
Arguments Ok {A} a.
Arguments Raise {A} e.

(** [str(e)] *)
Definition exn_str (e : exn) : string :=
  match e with FetchError msg => msg end.

(** The JSON object under the key [parse]: the value of [text] (itself an
    object, whose star entry is the HTML), the list under [categories]
    (objects, each with an optional star entry) and the number of further
    keys, which only matter for the truth value of the object. *)
Record parse_obj : Type := mkParse {
  p_text : option (option string);
  p_categories : option (list (option string));
  p_other_keys : nat;
}.

(** [len(parse)] and [bool(parse)] of that dict. *)
Definition parse_len (p : parse_obj) : nat :=
  ((if bool_decide (is_Some (p_text p)) then 1 else 0)
   + (if bool_decide (is_Some (p_categories p)) then 1 else 0)
   + p_other_keys p)%nat.

Definition parse_truthy (o : option parse_obj) : bool :=
  match o with
  | Some p => negb (Nat.eqb (parse_len p) 0)
  | None => false
  end.

(** The entries of the categories list whose star value is a non-empty
    string, normalised, without the maintenance categories. *)
Definition page_categories (p : parse_obj) : list string :=
  let cats :=
    omap (fun c => if truthy_opt c then Some (normalize_category_name (default "" c))
                   else None)
         (default [] (p_categories p)) in
  filter (fun c => negb (PyStr.startswith "pages using " (PyStr.lower c))) cats.

(** The HTML of the page: the star entry of [text], or the empty string
    when [text] or the entry is missing or empty. *)
Definition page_html (p : parse_obj) : string :=
  match mjoin (p_text p) with
  | Some h => if PyStr.truthy h then h else ""
  | None => ""
  end.

(** The data row of the table: the first match of [tbody tr + tr], else the
    second [tr] of the table. *)
Definition data_row (table : tag) : option tag :=
  match Soup.select_tbody_tr_tr table with
  | Some row => Some row
  | None => Soup.find_all "tr" table !! 1%nat
  end.

Definition row_cells (row : tag) : list tag :=
  Soup.find_children ["td"; "th"] row.

(** What the transport below [fetch_json] does for one request: the
    request fails, the body is not JSON, or a JSON object is decoded, of
    which only the value under [parse] is looked at.  [detail] stands for
    the URL and the cause, which the error message quotes. *)
Inductive transport : Type :=
| Request_failed (detail : string)
| Decode_failed (detail : string)
| Decoded (parse : option parse_obj).

Section Page.

(** The remote API at the parse action, by page title. *)
Variable api : string -> transport.

(** [BeautifulSoup(html, lxml)]: the top-level nodes of the parsed
    document. *)
Variable lxml : string -> list node.

(** [fetch_json] for the parse action of one page. *)
Definition fetch_parse (title : string) : result (option parse_obj) :=
  match api title with
  | Request_failed detail => Raise (FetchError ("Request failed: " +:+ detail))
  | Decode_failed detail =>
      Raise (FetchError ("Failed to decode JSON for: " +:+ detail))
  | Decoded parse => Ok parse
  end.

Definition missing_parse (title : string) : exn :=
  FetchError ("Missing parse output for page: " +:+ title).

(** What the cells of the data row give: icon, description and cost. *)
Definition extract_row (row : tag) : option string * description * ParsedCost :=
  let cells := row_cells row in
  let icon_url :=
    match cells !! 0%nat with
    | Some c0 =>
        match Soup.find "img" c0 with
        | Some img => Some (join_url (Soup.get_or_empty "src" img))
        | None => None
        end
    | None => None
    end in
  let description :=
    match cells !! 1%nat with
    | Some c1 => extract_description_parts (Some c1)
    | None => no_description
    end in
  let cost :=
    match cells !! 2%nat with
    | Some c2 => parse_cost_cell (Some c2)
    | None => mkParsedCost None None
    end in
  (icon_url, description, cost).

Definition extract_table (soup : list node)
    : option string * description * ParsedCost :=
  match Soup.select_wikitable soup with
  | Some table =>
      match data_row table with
      | Some row => extract_row row
      | None => (None, no_description, mkParsedCost None None)
      end
  | None => (None, no_description, mkParsedCost None None)
  end.

(** The part of [parse_item_page] after the check of the response. *)
Definition build_item (title : string) (p : parse_obj) : item :=
  let html := page_html p in
  let cats := page_categories p in
  let soup := lxml html in
  let '(icon_url, description, cost) := extract_table soup in
  mkItem title (canonical_page_url title) (infer_rarity cats) icon_url cost
         description cats.

Definition parse_item_page (title : string) : result item :=
  match fetch_parse title with
  | Raise e => Raise e
  | Ok parse =>
      if negb (parse_truthy parse) then Raise (missing_parse title)
      else
        match parse with
        | Some p => Ok (build_item title p)
        | None => Raise (missing_parse title)
        end
  end.

(** One turn of the loop of [main] over the titles: the item is appended
    to [items], or the error record to [errors]. *)
Definition scrape_one (acc : list item * list (string * string))
    (title : string) : list item * list (string * string) :=
  let '(items, errors) := acc in
  match parse_item_page title with
  | Ok it => (items ++ [it], errors)
  | Raise e => (items, errors ++ [(title, exn_str e)])
  end.

Definition scrape (titles : list string) : list item * list (string * string) :=
  fold_left scrape_one titles ([], []).

End Page.

(** ** Category traversal *)

(** One entry of a category listing: namespace number and title, either of
    which the API may leave out. *)
Record member : Type := mkMember {
  ns : option Z;
  title : option string;
}.

(** The category membership of the wiki: for a category title, the batches
    in which the API hands out its members (one request per batch, each but
    the last with a continuation token).  A title without entry has no
    members. *)
Abbreviation wiki := (gmap string (list (list member))).

(** Everything [iter_category_members] yields for one category. *)
Definition iter_category_members (w : wiki) (category_title : string)
    : list member :=
  concat (default [] (w !! category_title)).

(** The variables of [discover_item_pages], and the log of the categories
    whose members were enumerated (a ghost variable). *)
Record state : Type := mkState {
  seen_cats : gset string;
  queue : list string;
  pages : gset string;
  enumerated : list string;
}.

Definition ROOT : string := "Category:Items".

Definition init : state := mkState ∅ [ROOT] ∅ [].

(** The body of the loop over the members of one category. *)
Definition visit_member (acc : list string * gset string) (m : member)
    : list string * gset string :=
  let '(q, pg) := acc in
  if negb (truthy_opt (title m)) then acc
  else
    let t := default "" (title m) in
    if bool_decide (ns m = Some 14%Z) then (q ++ [t], pg)
    else if bool_decide (ns m = Some 0%Z) then (q, pg ∪ {[t]})
    else acc.

(** One turn of the [while queue] loop; [None] when the queue is empty. *)
Definition step (w : wiki) (st : state) : option state :=
  match queue st with
  | [] => None
  | cat :: q =>
      if bool_decide (cat ∈ seen_cats st)
      then Some (mkState (seen_cats st) q (pages st) (enumerated st))
      else
        let '(q', pg') :=
          fold_left visit_member (iter_category_members w cat) (q, pages st) in
        Some (mkState (seen_cats st ∪ {[cat]}) q' pg' (enumerated st ++ [cat]))
  end.

(** The loop, with a bound on the number of turns. *)
Fixpoint loop (fuel : nat) (w : wiki) (st : state) : option state :=
  match step w st with
  | None => Some st
  | Some st' =>
      match fuel with
      | O => None
      | S fuel' => loop fuel' w st'
      end
  end.

(** A number of turns that is always enough: one for the root and, for
    each category of the wiki, one plus one for each of its members. *)
Definition weight (e : string * list (list member)) : nat :=
  S (length (concat e.2)).

Definition turns (w : wiki) : nat :=
  S (sum_list_with weight (map_to_list w)).

(** [sorted(pages)] *)
Definition sorted (pg : gset string) : list string :=
  merge_sort String.le (elements pg).

Definition discover_item_pages (w : wiki) : option (list string) :=
  (fun st => sorted (pages st)) <$> loop (turns w) w init.

(** ** The run *)

Record payload : Type := mkPayload {
  count : nat;
  items : list item;
  errors : list (string * string);
}.

Section Main.

Variable api : string -> transport.
Variable lxml : string -> list node.
Variable w : wiki.

(** [main], up to the payload it writes; [limit] is the command-line
    option of that name. *)
Definition main (limit : Z) : option payload :=
  titles ← discover_item_pages w;
  let titles :=
    if (0 <? limit)%Z then take (Z.to_nat limit) titles else titles in
  let '(its, errs) := scrape api lxml titles in
  Some (mkPayload (length its) its errs).

End Main.


Local Close Scope N_scope.

(** ** The category graph

    The edges the traversal follows, read off the member listings: a
    member with a non-empty title is a sub-category when its namespace is
    14 and a content page when it is 0. *)

Definition is_cat_member (m : member) (c : string) : Prop :=
  title m = Some c ∧ c ≠ "" ∧ ns m = Some 14%Z.

Definition is_page_member (m : member) (t : string) : Prop :=
  title m = Some t ∧ t ≠ "" ∧ ns m = Some 0%Z.

Definition subcat (w : wiki) (c c' : string) : Prop :=
  ∃ m, m ∈ iter_category_members w c ∧ is_cat_member m c'.

Definition lists_page (w : wiki) (c t : string) : Prop :=
  ∃ m, m ∈ iter_category_members w c ∧ is_page_member m t.

(** The categories reachable from the root through sub-category edges. *)
Inductive reachable (w : wiki) : string -> Prop :=
| reach_root : reachable w ROOT
| reach_sub c c' : reachable w c -> subcat w c c' -> reachable w c'.

(** The content pages listed by some reachable category. *)
Definition page_reachable (w : wiki) (t : string) : Prop :=
  ∃ c, reachable w c ∧ lists_page w c t.

(** The measure that every turn of the loop decreases: the length of the
    queue plus the weight of the categories not yet seen. *)
Definition unseen (seen : gset string) (e : string * list (list member)) : bool :=
  bool_decide (e.1 ∉ seen).

Definition potential (w : wiki) (st : state) : nat :=
  length (queue st)
  + sum_list_with weight (filter (fun e => unseen (seen_cats st) e) (map_to_list w)).

(** What holds of the variables of the traversal at every turn. *)
Record traversal_inv (w : wiki) (st : state) : Prop := mkInv {
  inv_reach : ∀ c, c ∈ seen_cats st ∨ c ∈ queue st -> reachable w c;
  inv_root : ROOT ∈ seen_cats st ∨ ROOT ∈ queue st;
  inv_closed : ∀ c c', c ∈ seen_cats st -> subcat w c c' ->
                       c' ∈ seen_cats st ∨ c' ∈ queue st;
  inv_pages : ∀ t, t ∈ pages st <-> ∃ c, c ∈ seen_cats st ∧ lists_page w c t;
  inv_log : ∀ c, c ∈ enumerated st <-> c ∈ seen_cats st;
  inv_once : NoDup (enumerated st);
}.

(** What one member adds to the queue and to the pages. *)
Definition member_cat (m : member) : option string :=
  match title m with
  | Some t => if PyStr.truthy t && bool_decide (ns m = Some 14%Z) then Some t else None
  | None => None
  end.

Definition member_page (m : member) : option string :=
  match title m with
  | Some t =>
      if PyStr.truthy t && negb (bool_decide (ns m = Some 14%Z))
         && bool_decide (ns m = Some 0%Z)
      then Some t else None
  | None => None
  end.

(** ** Text normalisation, character by character

    The two substitutions of [clean_text] written without regular
    expressions, and the three steps in the words of the specification. *)

(** The longest prefix of [s] made of characters of class [cls]. *)
Fixpoint span (cls : ascii -> bool) (s : string) : string :=
  match s with
  | "" => ""
  | String c s' => if cls c then String c (span cls s') else ""
  end.

(** Every maximal run of whitespace becomes one space; [in_run] tells that
    the character before was whitespace. *)
Fixpoint collapse (in_run : bool) (s : string) : string :=
  match s with
  | "" => ""
  | String c s' =>
      if PyStr.is_space c
      then if in_run then collapse true s' else String " " (collapse true s')
      else String c (collapse false s')
  end.

Definition starts_punct (s : string) : bool :=
  match s with
  | "" => false
  | String c _ => is_punct c
  end.

(** A whitespace character goes when the first character after its run is
    a punctuation mark. *)
Fixpoint drop_before_punct (s : string) : string :=
  match s with
  | "" => ""
  | String c s' =>
      if PyStr.is_space c && starts_punct (PyStr.lstrip s')
      then drop_before_punct s'
      else String c (drop_before_punct s')
  end.

(** The steps of the whitespace normalisation contract. *)
Definition is_blank (c : ascii) : bool := Ascii.eqb c " ".

Definition collapse_runs (s : string) : string := collapse false s.

Fixpoint trim_left (s : string) : string :=
  match s with
  | "" => ""
  | String c s' => if is_blank c then trim_left s' else s
  end.

Fixpoint trim_right (s : string) : string :=
  match s with
  | "" => ""
  | String c s' =>
      match trim_right s' with
      | "" => if is_blank c then "" else String c ""
      | r => String c r
      end
  end.

Definition trim (s : string) : string := trim_right (trim_left s).

Fixpoint unspace_punct (s : string) : string :=
  match s with
  | "" => ""
  | String c s' =>
      if is_blank c && starts_punct s' then unspace_punct s'
      else String c (unspace_punct s')
  end.

Definition normalize_spec (s : string) : option string :=
  let r := unspace_punct (trim (collapse_runs s)) in
  if bool_decide (r = "") then None else Some r.

(** Shapes of strings along the way.  [single]: whitespace is a blank not
    followed by whitespace.  [tight]: whitespace is a blank followed by a
    character that is neither whitespace nor punctuation. *)
Definition starts_space (s : string) : bool :=
  match s with
  | "" => false
  | String c _ => PyStr.is_space c
  end.

Fixpoint single (s : string) : bool :=
  match s with
  | "" => true
  | String c s' =>
      (if PyStr.is_space c then is_blank c && negb (starts_space s') else true)
      && single s'
  end.

Fixpoint spaced (s : string) : bool :=
  match s with
  | "" => true
  | String c s' =>
      (if PyStr.is_space c then is_blank c && PyStr.starts_nonspace s' else true)
      && spaced s'
  end.

Fixpoint tight (s : string) : bool :=
  match s with
  | "" => true
  | String c s' =>
      (if PyStr.is_space c
       then is_blank c && PyStr.starts_nonspace s' && negb (starts_punct s')
       else true)
      && tight s'
  end.

(** A normalised text: tight, and not starting with whitespace. *)
Definition normal (s : string) : bool := tight s && negb (starts_space s).

(** The characters of [s] that are not whitespace. *)
Fixpoint nonspace (s : string) : string :=
  match s with
  | "" => ""
  | String c s' => if PyStr.is_space c then nonspace s' else String c (nonspace s')
  end.

(** The first character of a string, as a string. *)
Definition first_char (s : string) : string :=
  match s with
  | "" => ""
  | String c _ => String c ""
  end.

(** [clean_text] without regular expressions, before the test for the
    empty string. *)
Definition tidy (s : string) : string :=
  drop_before_punct (PyStr.strip (collapse false s)).

(** Every whitespace character of [s] is a blank. *)
Fixpoint ws_blank (s : string) : bool :=
  match s with
  | "" => true
  | String c s' => (if PyStr.is_space c then is_blank c else true) && ws_blank s'
  end.

(** ** Rarity categories, in the words of the specification *)

(** The name ends with the suffix [ Items], whatever the case of its
    letters. *)
Definition ends_with_items (c : string) : Prop :=
  ∃ pre suf, c = pre +:+ suf ∧ PyStr.lower suf = " items".

(** ... and is not exactly [Items]. *)
Definition names_rarity (c : string) : Prop :=
  ends_with_items c ∧ PyStr.lower c ≠ "items".

(** ** Amounts, character by character *)

(** Every character of [s] is of class [cls]. *)
Fixpoint all_chars (cls : ascii -> bool) (s : string) : bool :=
  match s with
  | "" => true
  | String c s' => cls c && all_chars cls s'
  end.

Definition starts_with_class (cls : ascii -> bool) (s : string) : bool :=
  match s with
  | "" => false
  | String c _ => cls c
  end.

Definition not_digit (c : ascii) : bool := negb (PyStr.is_digit c).

(** The text the amount pattern finds first: from the first digit on, as
    far as digits and commas go. *)
Fixpoint first_number (s : string) : option string :=
  match s with
  | "" => None
  | String c s' =>
      if PyStr.is_digit c then Some (String c (span is_digit_or_comma s'))
      else first_number s'
  end.

(** ** Description cells, in the words of the specification *)

(** The names of the elements of a subtree, the root included. *)
Definition node_names (n : node) : list string :=
  tag_name <$> Soup.node_tags [] None n.

(** The cell shows some text: one of its strings has a character that is
    not whitespace. *)
Definition visible (t : tag) : Prop :=
  ∃ s, s ∈ Soup.forest_strings (tag_children t) ∧ nonspace s ≠ "".

(** The normalised text of a tag and of a child node. *)
Definition tag_text (t : tag) : option string :=
  clean_text (Some (Soup.get_text " " t)).

Definition node_text (n : node) : option string :=
  clean_text (Some (child_text n)).

(** The text of an italic element holds a quotation mark. *)
Definition quotes (t : tag) : bool :=
  PyStr.has_char quotation_mark (Soup.get_text " " t).

(** An element named [name] is the node or lies below it. *)
Fixpoint has_element (name : string) (n : node) : bool :=
  match n with
  | Text _ => false
  | Element nm _ ch =>
      bool_decide (nm = name)
      || (fix any (l : list node) : bool :=
            match l with
            | [] => false
            | x :: l' => has_element name x || any l'
            end) ch
  end.

Fixpoint forest_has_element (name : string) (l : list node) : bool :=
  match l with
  | [] => false
  | x :: l' => has_element name x || forest_has_element name l'
  end.

(** ** Further notions used by the properties of the code *)

(** A URL with a scheme, as [join_url] tests it. *)
Definition is_absolute (u : string) : bool :=
  PyStr.startswith "http://" u || PyStr.startswith "https://" u.

(** The characters of a quoted path: the safe ones and the percent sign. *)
Definition is_quoted_char (c : ascii) : bool :=
  Quote.is_safe c || Ascii.eqb c "%".

(** The characters of a page URL: those of a quoted path and the colon of
    the scheme. *)
Definition is_url_char (c : ascii) : bool :=
  is_quoted_char c || Ascii.eqb c ":".

(** Reading a quoted path back: a percent sign and two hexadecimal digits
    are one byte, and a byte from 192 on opens a character of two bytes. *)
Definition hex_value (c : ascii) : N :=
  if PyStr.between 48 57 c then (PyStr.code c - 48)%N else (PyStr.code c - 55)%N.

Definition byte_of (h l : ascii) : N := (16 * hex_value h + hex_value l)%N.

Fixpoint unquote (s : string) : string :=
  match s with
  | "" => ""
  | String c s1 =>
      if Ascii.eqb c "%" then
        match s1 with
        | String h (String l s2) =>
            if (byte_of h l <? 128)%N then String (ascii_of_N (byte_of h l)) (unquote s2)
            else
              match s2 with
              | String _ (String h' (String l' s3)) =>
                  String (ascii_of_N ((byte_of h l - 192) * 64 + (byte_of h' l' - 128))%N)
                         (unquote s3)
              | _ => ""
              end
        | _ => ""
        end
      else String c (unquote s1)
  end.

(** A tag named [nm] comes before [t] in the list [l]. *)
Definition comes_after (nm : string) (t : tag) (l : list tag) : Prop :=
  ∃ l1 t' l2, l = l1 ++ t' :: l2 ∧ tag_name t' = nm ∧ t ∈ l2.

(** The statement proved of nodes and of forests: a tag whose sibling
    before it is named [nm] comes after a tag of that name, unless that
    sibling lies outside, before the node or forest. *)
Definition prev_is_listed (tags : list string -> option string -> list tag) : Prop :=
  ∀ ps pv t nm, t ∈ tags ps pv -> tag_prev t = Some nm ->
                pv = Some nm ∨ comes_after nm t (tags ps pv).

(** The API has a page for the title: the response is decoded and has a
    parse result. *)
Definition page_ok (api : string -> transport) (t : string) : bool :=
  match api t with
  | Decoded o => parse_truthy o
  | _ => false
  end.


(** ** Category members, page by page

    [iter_category_members] against the API itself.  A response holds the
    members of one page and the continuation parameters, empty on the last
    page; they are the parameters of the next request. *)

Record query_response : Type := mkResponse {
  categorymembers : list member;
  continue_ : gmap string string;
}.

(** What the generator did: the members it yielded, the exception that
    ended it if any, and the number of requests it made. *)
Record pages_run : Type := mkRun {
  yielded : list member;
  failure : option exn;
  requests : nat;
}.

Section Paging.

(** [fetch_json] for the query action: by category title and continuation
    parameters. *)
Variable fetch_query : string -> gmap string string -> result query_response.

(** The [while True] loop, with a bound on the number of turns. *)
Fixpoint iter_pages (fuel : nat) (category_title : string)
    (cont : gmap string string) : option pages_run :=
  match fuel with
  | O => None
  | S fuel' =>
      match fetch_query category_title cont with
      | Raise e => Some (mkRun [] (Some e) 1)
      | Ok data =>
          if bool_decide (continue_ data = ∅)
          then Some (mkRun (categorymembers data) None 1)
          else
            match iter_pages fuel' category_title (continue_ data) with
            | Some r =>
                Some (mkRun (categorymembers data ++ yielded r) (failure r)
                            (S (requests r)))
            | None => None
            end
      end
  end.

(** The API serves the batches [bs] of a category from the continuation
    [cont] on, and then ends the listing ([None]) or fails. *)
Inductive paged (category_title : string)
    : gmap string string -> list (list member) -> option exn -> Prop :=
| paged_last cont b :
    fetch_query category_title cont = Ok (mkResponse b ∅) ->
    paged category_title cont [b] None
| paged_fail cont e :
    fetch_query category_title cont = Raise e ->
    paged category_title cont [] (Some e)
| paged_more cont b cont' bs o :
    fetch_query category_title cont = Ok (mkResponse b cont') ->
    cont' ≠ ∅ ->
    paged category_title cont' bs o ->
    paged category_title cont (b :: bs) o.

End Paging.

(** The request that a failure costs. *)
Definition failed_request (o : option exn) : nat :=
  match o with
  | Some _ => 1
  | None => 0
  end.

(** The members that count for the traversal: those with a title that is
    not empty and with namespace 14 or 0. *)
Definition counts (m : member) : bool :=
  truthy_opt (title m)
  && (bool_decide (ns m = Some 14%Z) || bool_decide (ns m = Some 0%Z)).

(** The wiki without the members that do not count. *)
Definition prune_batch (b : list member) : list member :=
  filter (fun m => counts m) b.

Definition prune (w : wiki) : wiki :=
  (fun bs : list (list member) => prune_batch <$> bs) <$> w.

(** The children of a cell before the first child that is itself a list;
    all of them when no child is a list. *)
Fixpoint before_first_list (children : list node) : list node :=
  match children with
  | [] => []
  | n :: rest => if is_ul n then [] else n :: before_first_list rest
  end.

(** ** Concrete inputs used by the examples *)

Module Fixtures.

Definition txt (s : string) : node := Text s.
Definition el (nm : string) (ch : list node) : node := Element nm ∅ ch.

(** A cell of the data row of a table directly in the document. *)
Definition cell (ch : list node) : tag :=
  Tag ["tr"; "tbody"; "table"] (Some "td") "td" ∅ ch.

Definition quoted (s : string) : string :=
  String quotation_mark (s +:+ String quotation_mark "").

Definition luck_cell : tag :=
  cell [ txt "Boosts your luck.";
         el "ul" [el "li" [txt "Item one"]; el "li" [txt "Item two"]];
         el "p" [el "i" [txt (quoted "Fortune favors the bold.")]] ].

Definition bloodpoints_cell : tag :=
cell [Element "img" {[ "alt" := "Bloodpoints icon" ]} []; txt "5,500"].

(** A cell with two lists, the first with an empty item. *)
Definition first_list : list node := [el "li" [txt "Heals faster"]; el "li" []].

Definition two_lists_cell : tag :=
cell [ txt "Boosts your luck.";
       el "ul" first_list;
       txt "When injured:";
       el "ul" [el "li" [txt "Runs faster"]] ].

(** A cell that holds an image and no text. *)
Definition image_only_cell : tag :=
cell [Element "img" {[ "src" := "/images/toolbox.png" ]} []].

(** An item page whose icon has no source, and the API and parser that
    serve it; the second title has no page. *)
Definition toolbox_cells : list node :=
[ el "td" [Element "img" {[ "alt" := "Toolbox" ]} []];
  el "td" [txt "A sturdy toolbox."];
  el "td" [txt "Cost: 6,000"] ].

Definition toolbox_body : list node :=
[el "tbody"
   [ el "tr" [el "th" [txt "Icon"]; el "th" [txt "Description"]; el "th" [txt "Cost"]];
     el "tr" toolbox_cells ]].

Definition toolbox_table : node :=
Element "table" {[ "class" := "wikitable sortable" ]} toolbox_body.

(** The same rows in a table without [tbody]. *)
Definition bare_table : tag :=
Tag [] None "table" {[ "class" := "wikitable" ]}
  [ el "tr" [el "th" [txt "Icon"]];
    txt " ";
    el "tr" toolbox_cells ].

(** A cell whose list lies inside a child. *)
Definition nested_list_cell : tag :=
cell [ txt "Boosts your luck.";
       el "div" [el "ul" [el "li" [txt "Heals faster"]]];
       txt "Lasts 60 seconds." ].

Definition toolbox_parse : parse_obj :=
mkParse (Some (Some "<table>")) (Some [Some "Items"; Some "Rare_Items"]) 2.

Definition plain_parse : parse_obj :=
mkParse (Some (Some "<p>")) (Some [Some "Items"; Some "Pages_using_DynamicPageList"]) 2.

Definition fixture_api (title : string) : transport :=
if bool_decide (title = "Toolbox") then Decoded (Some toolbox_parse)
else if bool_decide (title = "Plain") then Decoded (Some plain_parse)
else if bool_decide (title = "Offline") then Request_failed "timed out"
else Decoded None.

Definition fixture_lxml (html : string) : list node :=
if bool_decide (html = "<table>") then [el "div" [toolbox_table]]
else [el "p" [txt "No table here."]].

Definition cat (t : string) : member := mkMember (Some 14%Z) (Some t).
Definition page (t : string) : member := mkMember (Some 0%Z) (Some t).

(** A wiki with a cycle: the root lists A, A lists B, B lists A. *)
Definition cyclic : wiki :=
  <[ "Category:Items" := [[cat "Category:A"; page "Toolbox"]] ]>
  (<[ "Category:A" := [[cat "Category:B"]; [page "Med-Kit"; page "Toolbox"]] ]>
  (<[ "Category:B" := [[cat "Category:A"; page "Flashlight"]] ]> ∅)).

(** The same edges, listed in another order and in other batches. *)
Definition cyclic_reordered : wiki :=
  <[ "Category:Items" := [[page "Toolbox"]; [cat "Category:A"]] ]>
  (<[ "Category:A" := [[page "Toolbox"; page "Med-Kit"; cat "Category:B"]] ]>
  (<[ "Category:B" := [[page "Flashlight"; cat "Category:A"]] ]> ∅)).

End Fixtures.

(** ** Further concrete inputs *)

Module MoreFixtures.

(** A page whose table has a header row only, and one whose data row has a
    single cell. *)
Definition header_only_table : node :=
Element "table" {[ "class" := "wikitable" ]}
  [Fixtures.el "tbody" [Fixtures.el "tr" [Fixtures.el "th" [Fixtures.txt "Icon"]]]].

Definition one_cell_table : node :=
Element "table" {[ "class" := "wikitable" ]}
  [Fixtures.el "tbody"
     [ Fixtures.el "tr" [Fixtures.el "th" [Fixtures.txt "Icon"]];
       Fixtures.el "tr"
         [Fixtures.el "td" [Element "img" {[ "src" := "/images/key.png" ]} []]] ]].

Definition short_parse (html : string) : parse_obj :=
mkParse (Some (Some html)) (Some [Some "Items"; Some "Uncommon_Items"]) 1.

Definition short_api (title : string) : transport :=
if bool_decide (title = "Header") then Decoded (Some (short_parse "<header>"))
else if bool_decide (title = "Key") then Decoded (Some (short_parse "<key>"))
else if bool_decide (title = "Broken") then Decode_failed "not JSON"
else Decoded (Some (mkParse None None 0)).

Definition short_lxml (html : string) : list node :=
if bool_decide (html = "<header>") then [header_only_table]
else if bool_decide (html = "<key>") then [one_cell_table]
else [].

(** An API that hands out a category in three pages. *)
Definition token (t : string) : gmap string string := {[ "cmcontinue" := t ]}.

Definition three_pages (category_title : string) (cont : gmap string string)
    : result query_response :=
if bool_decide (cont = ∅)
then Ok (mkResponse [Fixtures.page "Flashlight"; Fixtures.page "Key"] (token "2"))
else if bool_decide (cont = token "2")
then Ok (mkResponse [Fixtures.page "Map"] (token "3"))
else Ok (mkResponse [Fixtures.page "Med-Kit"; Fixtures.page "Toolbox"] ∅).

(** A wiki with members that do not count, and a larger one. *)
Definition noisy : wiki :=
<[ "Category:Items" :=
     [[Fixtures.page "Toolbox"; mkMember (Some 6%Z) (Some "File:Toolbox.png");
       mkMember (Some 0%Z) None; Fixtures.page ""]] ]> ∅.

Definition larger : wiki :=
<[ "Category:Items" :=
     [[Fixtures.page "Toolbox"; Fixtures.cat "Category:A"; Fixtures.page "Map"]] ]>
(<[ "Category:A" := [[Fixtures.page "Key"]] ]> ∅).

Definition smaller : wiki :=
<[ "Category:Items" := [[Fixtures.page "Toolbox"; Fixtures.cat "Category:A"]] ]> ∅.

End MoreFixtures.

(** * Text normalisation *)

Lemma truthy_ne s : PyStr.truthy s = true <-> s ≠ "".
Proof. destruct s; simpl; split; congruence. Qed.

(** ** The matcher on the patterns of the script *)

Lemma re_match_star cls s : Re.re_match [Re.Star cls] s = Some [span cls s].
Proof.
  induction s as [|c s IH]; [done|].
  change (Re.re_match [Re.Star cls] (String c s))
    with (if cls c then
            match Re.cons_head c (Re.re_match [Re.Star cls] s) with
            | Some ms => Some ms
            | None => Re.cons_group (Some [])
            end
          else Re.cons_group (Some [])).
  rewrite IH. simpl. by destruct (cls c).
Qed.

Lemma re_match_multispace s :
  Re.re_match _MULTISPACE_RE s
  = match s with
    | "" => None
    | String c s' =>
        if PyStr.is_space c then Some [String c ""; span PyStr.is_space s'] else None
    end.
Proof.
  destruct s as [|c s]; [done|]. unfold _MULTISPACE_RE.
  change (Re.re_match [Re.One PyStr.is_space; Re.Star PyStr.is_space] (String c s))
    with (if PyStr.is_space c then
            match Re.re_match [Re.Star PyStr.is_space] s with
            | Some ms => Some (String c "" :: ms)
            | None => None
            end
          else None).
  by rewrite re_match_star.
Qed.

Lemma is_space_not_punct c : PyStr.is_space c = true -> is_punct c = false.
Proof. destruct c as [[] [] [] [] [] [] [] []]; vm_compute; congruence. Qed.

Lemma is_blank_space c : is_blank c = true -> PyStr.is_space c = true.
Proof. unfold is_blank. by intros ->%Ascii.eqb_eq. Qed.

Lemma re_match_one_punct s :
  Re.re_match [Re.One is_punct] s
  = if starts_punct s then Some [first_char s] else None.
Proof. destruct s as [|c s]; [done|]. simpl. by destruct (is_punct c). Qed.

Lemma re_match_star_punct s :
  Re.re_match [Re.Star PyStr.is_space; Re.One is_punct] s
  = if starts_punct (PyStr.lstrip s)
    then Some [span PyStr.is_space s; first_char (PyStr.lstrip s)]
    else None.
Proof.
  induction s as [|c s IH]; [done|].
  change (Re.re_match [Re.Star PyStr.is_space; Re.One is_punct] (String c s))
    with (if PyStr.is_space c then
            match Re.cons_head c
                    (Re.re_match [Re.Star PyStr.is_space; Re.One is_punct] s) with
            | Some ms => Some ms
            | None => Re.cons_group (Re.re_match [Re.One is_punct] (String c s))
            end
          else Re.cons_group (Re.re_match [Re.One is_punct] (String c s))).
  rewrite IH, re_match_one_punct. cbn [PyStr.lstrip span starts_punct first_char].
  destruct (PyStr.is_space c) eqn:Hc.
  - rewrite (is_space_not_punct c Hc).
    by destruct (starts_punct (PyStr.lstrip s)).
  - simpl. by destruct (is_punct c).
Qed.

Lemma re_match_space_before_punct s :
  Re.re_match _SPACE_BEFORE_PUNCT_RE s
  = match s with
    | "" => None
    | String c s' =>
        if PyStr.is_space c && starts_punct (PyStr.lstrip s')
        then Some [String c ""; span PyStr.is_space s'; first_char (PyStr.lstrip s')]
        else None
    end.
Proof.
  destruct s as [|c s]; [done|]. unfold _SPACE_BEFORE_PUNCT_RE.
  change (Re.re_match [Re.One PyStr.is_space; Re.Star PyStr.is_space; Re.One is_punct]
            (String c s))
    with (if PyStr.is_space c then
            match Re.re_match [Re.Star PyStr.is_space; Re.One is_punct] s with
            | Some ms => Some (String c "" :: ms)
            | None => None
            end
          else None).
  rewrite re_match_star_punct.
  destruct (PyStr.is_space c); [|done].
  by destruct (starts_punct (PyStr.lstrip s)).
Qed.

(** ** The substitutions, character by character *)

Lemma match_length_cons m ms :
  Re.match_length (m :: ms) = String.length m + Re.match_length ms.
Proof. done. Qed.

Lemma match_length_nil : Re.match_length [] = 0.
Proof. done. Qed.

Lemma collapse_true_lstrip s : collapse true s = collapse false (PyStr.lstrip s).
Proof.
  induction s as [|c s IH]; [done|]. simpl.
  destruct (PyStr.is_space c) eqn:Hc; [done|]. simpl. by rewrite Hc.
Qed.

Lemma sub_multispace_go s :
  Re.sub_go _MULTISPACE_RE (fun _ => " ") 0 s = collapse false s
  ∧ Re.sub_go _MULTISPACE_RE (fun _ => " ") (String.length (span PyStr.is_space s)) s
    = collapse true s.
Proof.
  induction s as [|c s [IH0 IH1]]; [done|].
  assert (H0 : Re.sub_go _MULTISPACE_RE (fun _ => " ") 0 (String c s)
               = collapse false (String c s)).
  { cbn [Re.sub_go]. rewrite re_match_multispace. cbn [collapse].
    destruct (PyStr.is_space c).
    - rewrite !match_length_cons, match_length_nil, Nat.add_0_r.
      cbn [String.length Nat.add pred]. by rewrite IH1.
    - by rewrite IH0. }
  split; [done|].
  cbn [span collapse]. destruct (PyStr.is_space c) eqn:Hc.
  - cbn [String.length Re.sub_go]. done.
  - cbn [String.length]. rewrite H0. cbn [collapse]. by rewrite Hc.
Qed.

Lemma sub_multispace s :
  Re.sub _MULTISPACE_RE (fun _ => " ") s = collapse false s.
Proof. apply sub_multispace_go. Qed.

Lemma drop_before_punct_lstrip s :
  starts_punct (PyStr.lstrip s) = true ->
  drop_before_punct s = drop_before_punct (PyStr.lstrip s).
Proof.
  induction s as [|c s IH]; [done|]. cbn [PyStr.lstrip].
  destruct (PyStr.is_space c) eqn:Hc; [|done].
  intros Hp. cbn [drop_before_punct]. rewrite Hc, Hp. simpl. by apply IH.
Qed.

Lemma sub_space_before_punct_go s :
  Re.sub_go _SPACE_BEFORE_PUNCT_RE (Re.atom_text 2) 0 s = drop_before_punct s
  ∧ (starts_punct (PyStr.lstrip s) = true ->
     first_char (PyStr.lstrip s)
     +:+ Re.sub_go _SPACE_BEFORE_PUNCT_RE (Re.atom_text 2)
           (S (String.length (span PyStr.is_space s))) s
     = drop_before_punct s).
Proof.
  induction s as [|c s [IH0 IH1]]; [done|].
  assert (H0 : Re.sub_go _SPACE_BEFORE_PUNCT_RE (Re.atom_text 2) 0 (String c s)
               = drop_before_punct (String c s)).
  { cbn [Re.sub_go]. rewrite re_match_space_before_punct. cbn [drop_before_punct].
    destruct (PyStr.is_space c && starts_punct (PyStr.lstrip s)) eqn:Hm.
    - apply andb_true_iff in Hm as [Hc Hp].
      rewrite !match_length_cons, match_length_nil, Nat.add_0_r.
      unfold Re.atom_text. cbn [lookup list_lookup default String.length Nat.add pred].
      replace (String.length (span PyStr.is_space s)
               + String.length (first_char (PyStr.lstrip s)))
        with (S (String.length (span PyStr.is_space s))).
      + by apply IH1.
      + destruct (PyStr.lstrip s); [done|]. simpl. lia.
    - by rewrite IH0. }
  split; [done|].
  cbn [PyStr.lstrip span]. destruct (PyStr.is_space c) eqn:Hc.
  - intros Hp. cbn [String.length Re.sub_go drop_before_punct].
    rewrite Hc, Hp. simpl andb. cbv iota. by apply IH1.
  - intros Hp. cbn [String.length Re.sub_go first_char drop_before_punct].
    rewrite Hc. simpl andb. cbv iota. rewrite IH0. done.
Qed.

Lemma sub_space_before_punct s :
  Re.sub _SPACE_BEFORE_PUNCT_RE (Re.atom_text 2) s = drop_before_punct s.
Proof. apply sub_space_before_punct_go. Qed.

Lemma clean_text_tidy s : clean_text (Some s) = PyStr.or_none (tidy s).
Proof. unfold clean_text, tidy. by rewrite sub_multispace, sub_space_before_punct. Qed.

(** ** The shape of the text after each step *)

Lemma starts_space_collapse_true s : starts_space (collapse true s) = false.
Proof.
  induction s as [|c s IH]; [done|]. simpl.
  destruct (PyStr.is_space c) eqn:Hc; [done|]. simpl. by rewrite Hc.
Qed.

Lemma single_collapse b s : single (collapse b s) = true.
Proof.
  revert b. induction s as [|c s IH]; intros b; [done|]. simpl.
  destruct (PyStr.is_space c) eqn:Hc.
  - destruct b; [apply IH|]. simpl.
    by rewrite starts_space_collapse_true, IH.
  - simpl. by rewrite Hc, IH.
Qed.

Lemma single_ws_blank s : single s = true -> ws_blank s = true.
Proof.
  induction s as [|c s IH]; [done|]. simpl.
  intros [Hc Hs]%andb_true_iff. rewrite (IH Hs), andb_true_r.
  destruct (PyStr.is_space c); [|done]. by apply andb_true_iff in Hc as [-> _].
Qed.

Lemma single_lstrip s : single s = true -> single (PyStr.lstrip s) = true.
Proof.
  induction s as [|c s IH]; [done|]. intros Hs. simpl.
  destruct (PyStr.is_space c) eqn:Hc; [|done].
  simpl in Hs. apply andb_true_iff in Hs as [_ Hs]. by apply IH.
Qed.

Lemma starts_space_lstrip s : starts_space (PyStr.lstrip s) = false.
Proof.
  induction s as [|c s IH]; [done|]. simpl.
  destruct (PyStr.is_space c) eqn:Hc; [done|]. simpl. done.
Qed.

Lemma lstrip_id s : starts_space s = false -> PyStr.lstrip s = s.
Proof. destruct s as [|c s]; [done|]. simpl. by intros ->. Qed.

Lemma lstrip_trim_left s : ws_blank s = true -> PyStr.lstrip s = trim_left s.
Proof.
  induction s as [|c s IH]; [done|]. simpl.
  intros [Hc Hs]%andb_true_iff. destruct (PyStr.is_space c) eqn:Hsp.
  - rewrite Hc. by apply IH.
  - destruct (is_blank c) eqn:Hb; [|done].
    apply is_blank_space in Hb. congruence.
Qed.

Lemma rstrip_trim_right s : ws_blank s = true -> PyStr.rstrip s = trim_right s.
Proof.
  induction s as [|c s IH]; [done|]. simpl.
  intros [Hc Hs]%andb_true_iff. rewrite (IH Hs).
  destruct (trim_right s); [|done].
  destruct (PyStr.is_space c) eqn:Hsp.
  - by rewrite Hc.
  - destruct (is_blank c) eqn:Hb; [|done].
    apply is_blank_space in Hb. congruence.
Qed.

Lemma ws_blank_lstrip s : ws_blank s = true -> ws_blank (PyStr.lstrip s) = true.
Proof.
  induction s as [|c s IH]; [done|]. intros Hs. simpl.
  destruct (PyStr.is_space c) eqn:Hc; [|done].
  simpl in Hs. apply andb_true_iff in Hs as [_ Hs]. by apply IH.
Qed.

Lemma strip_trim s : ws_blank s = true -> PyStr.strip s = trim s.
Proof.
  intros Hs. unfold PyStr.strip, trim.
  rewrite rstrip_trim_right by by apply ws_blank_lstrip.
  by rewrite lstrip_trim_left.
Qed.

Lemma rstrip_head s d r : PyStr.rstrip s = String d r -> ∃ s', s = String d s'.
Proof.
  destruct s as [|c s]; [done|]. simpl.
  destruct (PyStr.rstrip s).
  - destruct (PyStr.is_space c); [done|]. intros [= <- <-]. eauto.
  - intros [= <- <-]. eauto.
Qed.

Lemma spaced_rstrip s : single s = true -> spaced (PyStr.rstrip s) = true.
Proof.
  induction s as [|c s IH]; [done|]. simpl.
  intros [Hc Hs]%andb_true_iff. specialize (IH Hs).
  destruct (PyStr.rstrip s) as [|d r] eqn:Hr.
  - destruct (PyStr.is_space c) eqn:Hsp; [done|]. simpl. by rewrite Hsp.
  - change (spaced (String c (String d r)))
      with ((if PyStr.is_space c
             then is_blank c && PyStr.starts_nonspace (String d r) else true)
            && spaced (String d r)).
    rewrite IH, andb_true_r.
    destruct (PyStr.is_space c) eqn:Hsp; [|done].
    apply andb_true_iff in Hc as [-> Hn]. simpl.
    apply rstrip_head in Hr as [s' ->]. simpl in Hn. done.
Qed.

Lemma starts_space_rstrip s :
  starts_space s = false -> starts_space (PyStr.rstrip s) = false.
Proof.
  destruct s as [|c s]; [done|]. simpl. intros Hc.
  destruct (PyStr.rstrip s); [|done]. by rewrite Hc.
Qed.

Lemma spaced_strip s : single s = true -> spaced (PyStr.strip s) = true.
Proof. intros Hs. apply spaced_rstrip. by apply single_lstrip. Qed.

Lemma starts_space_strip s : starts_space (PyStr.strip s) = false.
Proof. apply starts_space_rstrip, starts_space_lstrip. Qed.

Lemma starts_nonspace_space s :
  PyStr.starts_nonspace s = true -> starts_space s = false.
Proof. destruct s as [|c s]; [done|]. simpl. by destruct (PyStr.is_space c). Qed.

Lemma drop_before_punct_unspace s :
  spaced s = true -> drop_before_punct s = unspace_punct s.
Proof.
  induction s as [|c s IH]; [done|]. simpl.
  intros [Hc Hs]%andb_true_iff. rewrite (IH Hs).
  destruct (PyStr.is_space c) eqn:Hsp.
  - apply andb_true_iff in Hc as [-> Hn].
    by rewrite (lstrip_id s (starts_nonspace_space s Hn)).
  - destruct (is_blank c) eqn:Hb; [|done].
    apply is_blank_space in Hb. congruence.
Qed.

Lemma tidy_spec s : tidy s = unspace_punct (trim (collapse_runs s)).
Proof.
  unfold tidy, collapse_runs.
  pose proof (single_collapse false s) as Hs.
  rewrite drop_before_punct_unspace by by apply spaced_strip.
  by rewrite strip_trim by by apply single_ws_blank.
Qed.

Lemma or_none_spec r :
  PyStr.or_none r = if bool_decide (r = "") then None else Some r.
Proof. by destruct r. Qed.

Lemma clean_text_spec s : clean_text (Some s) = normalize_spec s.
Proof.
  rewrite clean_text_tidy, or_none_spec. unfold normalize_spec.
  by rewrite tidy_spec.
Qed.

(** ** Normalised texts are fixed points *)

Lemma starts_drop_before_punct c s :
  PyStr.is_space c = false ->
  drop_before_punct (String c s) = String c (drop_before_punct s).
Proof. intros Hc. simpl. by rewrite Hc. Qed.

Lemma tight_drop_before_punct s :
  spaced s = true -> tight (drop_before_punct s) = true.
Proof.
  induction s as [|c s IH]; [done|]. cbn [spaced].
  intros [Hc Hs]%andb_true_iff. specialize (IH Hs). cbn [drop_before_punct].
  destruct (PyStr.is_space c) eqn:Hsp.
  - apply andb_true_iff in Hc as [Hb Hn].
    rewrite (lstrip_id s (starts_nonspace_space s Hn)). simpl andb.
    destruct (starts_punct s) eqn:Hp; [done|].
    cbn [tight]. rewrite Hsp, Hb, IH, andb_true_r. simpl andb.
    destruct s as [|d s]; [done|]. simpl in Hn, Hp.
    apply negb_true_iff in Hn. rewrite (starts_drop_before_punct d s Hn).
    simpl. by rewrite Hn, Hp.
  - simpl andb. cbn [tight]. by rewrite Hsp, IH.
Qed.

Lemma starts_space_drop_before_punct s :
  starts_space s = false -> starts_space (drop_before_punct s) = false.
Proof.
  destruct s as [|c s]; [done|]. simpl. intros Hc. by rewrite Hc.
Qed.

Lemma normal_tidy s : normal (tidy s) = true.
Proof.
  unfold normal, tidy. apply andb_true_iff. split.
  - apply tight_drop_before_punct, spaced_strip, single_collapse.
  - apply negb_true_iff, starts_space_drop_before_punct, starts_space_strip.
Qed.

Lemma tight_collapse s : tight s = true -> collapse false s = s.
Proof.
  induction s as [|c s IH]; [done|]. cbn [tight collapse].
  intros [Hc Hs]%andb_true_iff. rewrite collapse_true_lstrip, (IH Hs).
  destruct (PyStr.is_space c) eqn:Hsp; [|done].
  apply andb_true_iff in Hc as [[Hb Hn]%andb_true_iff _].
  rewrite (lstrip_id s (starts_nonspace_space s Hn)), (IH Hs).
  apply Ascii.eqb_eq in Hb. by subst.
Qed.

Lemma tight_rstrip s : tight s = true -> PyStr.rstrip s = s.
Proof.
  induction s as [|c s IH]; [done|]. cbn [tight PyStr.rstrip].
  intros [Hc Hs]%andb_true_iff. rewrite (IH Hs).
  destruct s as [|d s]; [|done].
  destruct (PyStr.is_space c); [|done]. simpl in Hc. by rewrite andb_false_r in Hc.
Qed.

Lemma tight_drop s : tight s = true -> drop_before_punct s = s.
Proof.
  induction s as [|c s IH]; [done|]. cbn [tight drop_before_punct].
  intros [Hc Hs]%andb_true_iff. rewrite (IH Hs).
  destruct (PyStr.is_space c) eqn:Hsp; [|done].
  apply andb_true_iff in Hc as [[Hb Hn]%andb_true_iff Hp].
  rewrite (lstrip_id s (starts_nonspace_space s Hn)).
  apply negb_true_iff in Hp. by rewrite Hp.
Qed.

Lemma normal_strip s : normal s = true -> PyStr.strip s = s.
Proof.
  intros [Ht Hs%negb_true_iff]%andb_true_iff. unfold PyStr.strip.
  rewrite (lstrip_id s Hs). by apply tight_rstrip.
Qed.

Lemma normal_fixed s : normal s = true -> tidy s = s.
Proof.
  intros Hn. pose proof Hn as [Ht Hs]%andb_true_iff. unfold tidy.
  rewrite (tight_collapse s Ht), (normal_strip s Hn). by apply tight_drop.
Qed.

Lemma tidy_idempotent s : tidy (tidy s) = tidy s.
Proof. apply normal_fixed, normal_tidy. Qed.

Lemma strip_tidy s : PyStr.strip (tidy s) = tidy s.
Proof. apply normal_strip, normal_tidy. Qed.

(** ** The characters that are not whitespace are kept *)

Lemma nonspace_collapse b s : nonspace (collapse b s) = nonspace s.
Proof.
  revert b. induction s as [|c s IH]; intros b; [done|]. simpl.
  destruct (PyStr.is_space c) eqn:Hc.
  - destruct b; [apply IH|]. simpl. apply IH.
  - simpl. by rewrite Hc, IH.
Qed.

Lemma nonspace_lstrip s : nonspace (PyStr.lstrip s) = nonspace s.
Proof.
  induction s as [|c s IH]; [done|]. simpl.
  destruct (PyStr.is_space c) eqn:Hc; [done|]. simpl. by rewrite Hc.
Qed.

Lemma nonspace_rstrip s : nonspace (PyStr.rstrip s) = nonspace s.
Proof.
  induction s as [|c s IH]; [done|]. simpl. rewrite <- IH.
  destruct (PyStr.rstrip s) as [|d r].
  - destruct (PyStr.is_space c) eqn:Hc; [done|]. simpl. by rewrite Hc.
  - cbn [nonspace]. done.
Qed.

Lemma nonspace_strip s : nonspace (PyStr.strip s) = nonspace s.
Proof. unfold PyStr.strip. by rewrite nonspace_rstrip, nonspace_lstrip. Qed.

Lemma nonspace_drop_before_punct s : nonspace (drop_before_punct s) = nonspace s.
Proof.
  induction s as [|c s IH]; [done|]. simpl.
  destruct (PyStr.is_space c) eqn:Hc; simpl.
  - destruct (starts_punct (PyStr.lstrip s)); [done|]. simpl. by rewrite Hc.
  - by rewrite Hc, IH.
Qed.

Lemma nonspace_tidy s : nonspace (tidy s) = nonspace s.
Proof.
  unfold tidy.
  by rewrite nonspace_drop_before_punct, nonspace_strip, nonspace_collapse.
Qed.

Lemma has_char_nonspace q s :
  PyStr.is_space q = false -> PyStr.has_char q (nonspace s) = PyStr.has_char q s.
Proof.
  intros Hq. induction s as [|c s IH]; [done|]. simpl.
  destruct (PyStr.is_space c) eqn:Hc; simpl; rewrite IH; [|done].
  destruct (Ascii.eqb_spec q c) as [->|]; [congruence|done].
Qed.

Lemma has_char_tidy q s :
  PyStr.is_space q = false -> PyStr.has_char q (tidy s) = PyStr.has_char q s.
Proof.
  intros Hq. by rewrite <- (has_char_nonspace q (tidy s)), nonspace_tidy,
    has_char_nonspace.
Qed.

Lemma normal_nonspace_empty s : normal s = true -> nonspace s = "" -> s = "".
Proof.
  destruct s as [|c s]; [done|]. unfold normal. simpl.
  intros [_ Hc%negb_true_iff]%andb_true_iff. by rewrite Hc.
Qed.

Lemma tidy_empty s : tidy s = "" <-> nonspace s = "".
Proof.
  split.
  - intros Ht. by rewrite <- nonspace_tidy, Ht.
  - intros Hn. apply normal_nonspace_empty; [apply normal_tidy|].
    by rewrite nonspace_tidy.
Qed.

(** [clean_text] never gives the empty string, and gives nothing exactly
    for the texts without a visible character. *)
Lemma clean_text_not_empty s : clean_text (Some s) ≠ Some "".
Proof. rewrite clean_text_tidy. by destruct (tidy s). Qed.

Lemma clean_text_none s : clean_text (Some s) = None <-> nonspace s = "".
Proof.
  rewrite clean_text_tidy, <- tidy_empty. destruct (tidy s); simpl; split; done.
Qed.

Lemma clean_text_some s r : clean_text (Some s) = Some r -> r = tidy s ∧ r ≠ "".
Proof. rewrite clean_text_tidy. destruct (tidy s); simpl; [done|]. by intros [= <-]. Qed.

Lemma clean_text_idempotent s : clean_text (clean_text (Some s)) = clean_text (Some s).
Proof.
  rewrite (clean_text_tidy s). destruct (tidy s) eqn:Ht; [done|].
  cbn [PyStr.or_none PyStr.truthy]. rewrite clean_text_tidy, <- Ht, tidy_idempotent.
  by rewrite Ht.
Qed.

(** C6. [clean_text] is the contract of the specification: every run of
    whitespace becomes one blank, blanks at both ends are trimmed, a blank
    directly before one of the marks [, . ; : ! ? %] is removed, and an
    empty result is given as [None], never as the empty string; the text
    of the specification's example is normalised as stated there. *)
Theorem clean_text_contract :
  clean_text None = None
  ∧ (∀ s, clean_text (Some s)
          = let r := unspace_punct (trim (collapse_runs s)) in
            if bool_decide (r = "") then None else Some r)
  ∧ (∀ s, clean_text (Some s) ≠ Some "")
  ∧ clean_text (Some "  Heals   faster ,  grants Exposure !  ")
    = Some "Heals faster, grants Exposure!".
Proof.
  split; [done|]. split; [apply clean_text_spec|].
  split; [apply clean_text_not_empty|]. vm_compute. reflexivity.
Qed.

(** * Rarity *)

Lemma app_cons c (s t : string) : String c s +:+ t = String c (s +:+ t).
Proof. done. Qed.

Lemma app_empty_l (t : string) : "" +:+ t = t.
Proof. done. Qed.

Lemma app_empty_r (s : string) : s +:+ "" = s.
Proof. induction s as [|c s IH]; [done|]. by rewrite app_cons, IH. Qed.

Lemma app_assoc_s (a b c : string) : (a +:+ b) +:+ c = a +:+ (b +:+ c).
Proof. induction a as [|x a IH]; [done|]. by rewrite !app_cons, IH. Qed.

Lemma length_app_s (s t : string) :
  String.length (s +:+ t) = String.length s + String.length t.
Proof. induction s as [|c s IH]; [done|]. rewrite app_cons. simpl. by rewrite IH. Qed.

Lemma lower_app (s t : string) :
  PyStr.lower (s +:+ t) = PyStr.lower s +:+ PyStr.lower t.
Proof. induction s as [|c s IH]; [done|]. rewrite app_cons. simpl. by rewrite IH. Qed.

Lemma lower_length s : String.length (PyStr.lower s) = String.length s.
Proof. induction s as [|c s IH]; [done|]. simpl. by rewrite IH. Qed.

Lemma lower_split s a b :
  PyStr.lower s = a +:+ b ->
  ∃ a' b', s = a' +:+ b' ∧ PyStr.lower a' = a ∧ PyStr.lower b' = b.
Proof.
  revert s. induction a as [|x a IH]; intros s Hs.
  - exists "", s. done.
  - destruct s as [|c s]; [done|]. rewrite app_cons in Hs. simpl in Hs.
    injection Hs as Hx Hs. destruct (IH s Hs) as (a' & b' & -> & Ha & Hb).
    exists (String c a'), b'. rewrite app_cons. simpl. by rewrite Hx, Ha.
Qed.

Lemma endswith_spec suf s :
  PyStr.endswith suf s = true <-> ∃ pre, s = pre +:+ suf.
Proof.
  induction s as [|c s IH]; cbn [PyStr.endswith].
  - rewrite orb_false_r. split.
    + intros ->%String.eqb_eq. by exists "".
    + intros ([|] & Hp); [|done]. rewrite app_empty_l in Hp. subst.
      apply String.eqb_refl.
  - rewrite orb_true_iff, IH. split.
    + intros [->%String.eqb_eq|(pre & ->)]; [by exists ""|].
      exists (String c pre). by rewrite app_cons.
    + intros ([|x pre] & Hp).
      * left. rewrite app_empty_l in Hp. subst. apply String.eqb_refl.
      * right. rewrite app_cons in Hp. injection Hp as -> ->. eauto.
Qed.

Lemma substring_prefix (pre suf : string) :
  String.substring 0 (String.length pre) (pre +:+ suf) = pre.
Proof.
  induction pre as [|c pre IH]; simpl.
  - by destruct suf.
  - by rewrite IH.
Qed.

Lemma drop_last_app (pre suf : string) :
  PyStr.drop_last (String.length suf) (pre +:+ suf) = pre.
Proof.
  unfold PyStr.drop_last. rewrite length_app_s.
  replace (String.length pre + String.length suf - String.length suf)
    with (String.length pre) by lia.
  apply substring_prefix.
Qed.

Lemma ends_with_items_spec c :
  PyStr.endswith " items" (PyStr.lower c) = true <-> ends_with_items c.
Proof.
  rewrite endswith_spec. unfold ends_with_items. split.
  - intros (p & Hp). apply lower_split in Hp as (a & b & -> & _ & Hb). eauto.
  - intros (pre & suf & -> & Hs). exists (PyStr.lower pre). by rewrite lower_app, Hs.
Qed.

Lemma ends_with_items_not_items c : ends_with_items c -> PyStr.lower c ≠ "items".
Proof.
  intros (pre & suf & -> & Hs) Hc.
  apply (f_equal String.length) in Hc. rewrite lower_length, length_app_s in Hc.
  apply (f_equal String.length) in Hs. rewrite lower_length in Hs.
  simpl in Hc, Hs. lia.
Qed.

Lemma is_rarity_category_spec c :
  is_rarity_category c = true <-> names_rarity c.
Proof.
  unfold is_rarity_category, names_rarity.
  rewrite andb_true_iff, ends_with_items_spec, negb_true_iff, bool_decide_eq_false.
  rewrite list_elem_of_singleton. done.
Qed.

Lemma infer_rarity_none cats :
  (∀ x, x ∈ cats -> ¬ names_rarity x) -> infer_rarity cats = None.
Proof.
  induction cats as [|c cats IH]; [done|]. intros Hno. simpl.
  destruct (is_rarity_category c) eqn:Hc.
  - apply is_rarity_category_spec in Hc. destruct (Hno c); [by left|done].
  - apply IH. intros x Hx. apply Hno. by right.
Qed.

Lemma infer_rarity_first before c after :
  (∀ x, x ∈ before -> ¬ names_rarity x) -> names_rarity c ->
  infer_rarity (before ++ c :: after)
  = Some (PyStr.strip (PyStr.drop_last 6 c)).
Proof.
  intros Hno Hc. induction before as [|b before IH]; simpl.
  - apply is_rarity_category_spec in Hc. by rewrite Hc.
  - destruct (is_rarity_category b) eqn:Hb.
    + apply is_rarity_category_spec in Hb. destruct (Hno b); [by left|done].
    + apply IH. intros x Hx. apply Hno. by right.
Qed.

(** C8. The rarity is read off the first category, in the order of the
    list, whose name ends with the suffix [ Items] in whatever case and is
    not exactly [Items]: it is that name without the suffix, trimmed of
    whitespace at its ends, hence the name without the suffix itself
    when a single blank stands before [Items].  Without such a category
    there is no rarity.  The condition on [Items] itself never decides: a
    name that ends with the suffix is longer.  The example of the
    specification gives [Very Rare]. *)
Theorem rarity_from_first_items_category :
  (∀ before c after pre suf,
      (∀ x, x ∈ before -> ¬ names_rarity x) ->
      c = pre +:+ suf -> PyStr.lower suf = " items" -> PyStr.lower c ≠ "items" ->
      infer_rarity (before ++ c :: after) = Some (PyStr.strip pre)
      ∧ (PyStr.strip pre = pre -> infer_rarity (before ++ c :: after) = Some pre))
  ∧ (∀ cats, (∀ x, x ∈ cats -> ¬ names_rarity x) -> infer_rarity cats = None)
  ∧ (∀ c, ends_with_items c -> names_rarity c)
  ∧ infer_rarity ["Items"; "Very Rare Items"; "Survivor Items"] = Some "Very Rare".
Proof.
  split; [|split; [apply infer_rarity_none|split]].
  - intros before c after pre suf Hno -> Hs Hne.
    assert (infer_rarity (before ++ (pre +:+ suf) :: after) = Some (PyStr.strip pre))
      as Hr.
    { rewrite infer_rarity_first; [|done|].
      + assert (String.length suf = 6) as <-.
        { apply (f_equal String.length) in Hs. by rewrite lower_length in Hs. }
        by rewrite drop_last_app.
      + split; [|done]. by exists pre, suf. }
    split; [done|]. intros Hn. by rewrite Hr, Hn.
  - intros c Hc. split; [done|]. by apply ends_with_items_not_items.
  - vm_compute. reflexivity.
Qed.

(** * Cost cell *)

Lemma re_match_amount s :
  Re.re_match _AMOUNT_RE s
  = match s with
    | "" => None
    | String c s' =>
        if PyStr.is_digit c then Some [String c ""; span is_digit_or_comma s'] else None
    end.
Proof.
  destruct s as [|c s]; [done|]. unfold _AMOUNT_RE.
  change (Re.re_match [Re.One PyStr.is_digit; Re.Star is_digit_or_comma] (String c s))
    with (if PyStr.is_digit c then
            match Re.re_match [Re.Star is_digit_or_comma] s with
            | Some ms => Some (String c "" :: ms)
            | None => None
            end
          else None).
  by rewrite re_match_star.
Qed.

Lemma search_amount s :
  Re.text_from 0 <$> Re.search _AMOUNT_RE s = first_number s.
Proof.
  induction s as [|c s IH]; [done|].
  cbn [Re.search first_number]. rewrite re_match_amount.
  destruct (PyStr.is_digit c); [|done].
  cbn [fmap option_fmap option_map]. unfold Re.text_from. cbn [drop String.concat].
  by rewrite app_cons, app_empty_l, app_empty_l.
Qed.

Lemma span_run cls run post :
  all_chars cls run = true -> starts_with_class cls post = false ->
  span cls (run +:+ post) = run.
Proof.
  intros Hr Hp. induction run as [|c run IH].
  - rewrite app_empty_l. destruct post as [|d post]; [done|]. simpl in *. by rewrite Hp.
  - rewrite app_cons. simpl in *. apply andb_true_iff in Hr as [-> Hr]. by rewrite IH.
Qed.

Lemma first_number_run pre run post :
  all_chars not_digit pre = true ->
  starts_with_class PyStr.is_digit run = true ->
  all_chars is_digit_or_comma run = true ->
  starts_with_class is_digit_or_comma post = false ->
  first_number (pre +:+ run +:+ post) = Some run.
Proof.
  intros Hpre Hd Hrun Hpost. induction pre as [|c pre IH].
  - rewrite app_empty_l. destruct run as [|d run]; [done|].
    rewrite app_cons. simpl in *. rewrite Hd.
    apply andb_true_iff in Hrun as [_ Hrun]. by rewrite span_run.
  - rewrite app_cons. simpl in *. apply andb_true_iff in Hpre as [Hc Hpre].
    unfold not_digit in Hc. apply negb_true_iff in Hc. rewrite Hc. by apply IH.
Qed.

Lemma first_number_none s :
  all_chars not_digit s = true -> first_number s = None.
Proof.
  induction s as [|c s IH]; [done|]. simpl. intros [Hc Hs]%andb_true_iff.
  unfold not_digit in Hc. apply negb_true_iff in Hc. rewrite Hc. by apply IH.
Qed.

Lemma amount_first_number td :
  amount (parse_cost_cell (Some td))
  = (fun run => PyStr.int (PyStr.remove_char "," run)) <$> first_number (cell_text td).
Proof.
  unfold parse_cost_cell. cbn [amount]. rewrite <- search_amount.
  by destruct (Re.search _AMOUNT_RE (cell_text td)).
Qed.

Lemma scan_images_first before img after c :
  (∀ x, x ∈ before -> image_currency x = None) -> image_currency img = Some c ->
  scan_images (before ++ img :: after) = Some c.
Proof.
  intros Hno Hc. induction before as [|b before IH]; simpl.
  - by rewrite Hc.
  - rewrite (Hno b) by by left. apply IH. intros x Hx. apply Hno. by right.
Qed.

Lemma scan_images_none imgs :
  (∀ x, x ∈ imgs -> image_currency x = None) -> scan_images imgs = None.
Proof.
  induction imgs as [|b imgs IH]; [done|]. intros Hno. simpl.
  rewrite (Hno b) by by left. apply IH. intros x Hx. apply Hno. by right.
Qed.

Lemma scan_hints_first before needle mapped after lower :
  (∀ h, h ∈ before -> PyStr.contains h.1 lower = false) ->
  PyStr.contains needle lower = true ->
  scan_hints (before ++ (needle, mapped) :: after) lower = Some mapped.
Proof.
  intros Hno Hc. induction before as [|[n m] before IH]; simpl.
  - by rewrite Hc.
  - pose proof (Hno (n, m) ltac:(by left)) as Hn. simpl in Hn. rewrite Hn.
    apply IH. intros x Hx. apply Hno. by right.
Qed.

Lemma scan_hints_none hints lower :
  (∀ h, h ∈ hints -> PyStr.contains h.1 lower = false) ->
  scan_hints hints lower = None.
Proof.
  induction hints as [|[n m] hints IH]; [done|]. intros Hno. simpl.
  pose proof (Hno (n, m) ltac:(by left)) as Hn. simpl in Hn. rewrite Hn.
  apply IH. intros x Hx. apply Hno. by right.
Qed.

(** C5. The currency of a cost cell comes from the first image of the
    cell, in document order, whose lower-cased blob of alt text and source
    holds a hint, where [bloodpoints] is looked for before [shards] and
    [shards] before [auric] or [cells]; when no image gives one, it comes
    from the first hint of the table, in its fixed order, that the
    lower-cased text of the cell holds.  The amount is the first run of
    digits and commas that starts with a digit, read as a number once the
    commas are taken out, and there is none when the text has no digit.
    Either field may be missing without the other. *)
Theorem parse_cost_cell_contract :
  (∀ img,
      image_currency img
      = if PyStr.contains "bloodpoints" (image_blob img) then Some "bloodpoints"
        else if PyStr.contains "shards" (image_blob img) then Some "iridescent_shards"
        else if PyStr.contains "auric" (image_blob img)
                || PyStr.contains "cells" (image_blob img) then Some "auric_cells"
        else None)
  ∧ (∀ td before img after c,
        Soup.find_all "img" td = before ++ img :: after ->
        (∀ x, x ∈ before -> image_currency x = None) ->
        image_currency img = Some c ->
        currency (parse_cost_cell (Some td)) = Some c)
  ∧ _CURRENCY_HINTS.*1
    = ["bloodpoints"; "bp"; "iridescent shards"; "shards"; "auric cells"; "cells"]
  ∧ (∀ td before needle mapped after,
        (∀ x, x ∈ Soup.find_all "img" td -> image_currency x = None) ->
        _CURRENCY_HINTS = before ++ (needle, mapped) :: after ->
        (∀ h, h ∈ before -> PyStr.contains h.1 (PyStr.lower (cell_text td)) = false) ->
        PyStr.contains needle (PyStr.lower (cell_text td)) = true ->
        currency (parse_cost_cell (Some td)) = Some mapped)
  ∧ (∀ td,
        (∀ x, x ∈ Soup.find_all "img" td -> image_currency x = None) ->
        (∀ h, h ∈ _CURRENCY_HINTS ->
              PyStr.contains h.1 (PyStr.lower (cell_text td)) = false) ->
        currency (parse_cost_cell (Some td)) = None)
  ∧ (∀ td pre run post,
        cell_text td = pre +:+ run +:+ post ->
        all_chars not_digit pre = true ->
        starts_with_class PyStr.is_digit run = true ->
        all_chars is_digit_or_comma run = true ->
        starts_with_class is_digit_or_comma post = false ->
        amount (parse_cost_cell (Some td))
        = Some (PyStr.int (PyStr.remove_char "," run)))
  ∧ (∀ td, all_chars not_digit (cell_text td) = true ->
           amount (parse_cost_cell (Some td)) = None)
  ∧ parse_cost_cell (Some (Fixtures.cell [Fixtures.txt "Cost: 6,000"]))
    = mkParsedCost (Some 6000%N) None.
Proof.
  split; [done|]. split.
  { intros td before img after c Himgs Hno Hc. unfold parse_cost_cell.
    cbn [currency]. by rewrite Himgs, (scan_images_first before img after c). }
  split; [done|]. split.
  { intros td before needle mapped after Hno Htable Hbefore Hc.
    unfold parse_cost_cell. cbn [currency]. rewrite (scan_images_none _ Hno), Htable.
    by apply scan_hints_first. }
  split.
  { intros td Hno Hhints. unfold parse_cost_cell. cbn [currency].
    rewrite (scan_images_none _ Hno). by apply scan_hints_none. }
  split.
  { intros td pre run post Htext Hpre Hd Hrun Hpost.
    rewrite amount_first_number, Htext.
    by rewrite (first_number_run pre run post). }
  split.
  { intros td Hno. by rewrite amount_first_number, first_number_none. }
  vm_compute. reflexivity.
Qed.

(** * Parsed HTML: traversal lemmas *)

(** Induction on nodes, with the hypothesis for every child. *)
Lemma node_ind' (P : node -> Prop)
    (HT : ∀ s, P (Text s))
    (HE : ∀ nm at_ ch, Forall P ch -> P (Element nm at_ ch)) :
  ∀ n, P n.
Proof.
  fix IH 1. intros [s|nm at_ ch]; [apply HT|]. apply HE.
  induction ch as [|x ch IHch]; constructor; [apply IH|apply IHch].
Qed.

Lemma node_tags_element ps pv nm at_ ch :
  Soup.node_tags ps pv (Element nm at_ ch)
  = Tag ps pv nm at_ ch :: Soup.forest_tags (nm :: ps) None ch.
Proof.
  cbn [Soup.node_tags]. f_equal. generalize (@None string).
  induction ch as [|x ch IH]; intros pv'; [done|].
  cbn [Soup.forest_tags]. by rewrite IH.
Qed.

Lemma has_element_element name nm at_ ch :
  has_element name (Element nm at_ ch)
  = bool_decide (nm = name) || forest_has_element name ch.
Proof.
  cbn [has_element]. f_equal.
  induction ch as [|x ch IH]; [done|]. cbn [forest_has_element]. by rewrite IH.
Qed.

Lemma forest_tags_app ps pv l1 l2 :
  Soup.forest_tags ps pv (l1 ++ l2)
  = Soup.forest_tags ps pv l1
    ++ Soup.forest_tags ps (foldl Soup.next_prev pv l1) l2.
Proof.
  revert pv. induction l1 as [|x l1 IH]; intros pv; [done|].
  cbn [app Soup.forest_tags foldl]. by rewrite IH, app_assoc.
Qed.

Lemma forest_has_element_false name l :
  forest_has_element name l = false <-> ∀ x, x ∈ l -> has_element name x = false.
Proof.
  induction l as [|x l IH]; cbn [forest_has_element].
  - split; [|done]. intros _ x Hx. by apply elem_of_nil in Hx.
  - rewrite orb_false_iff, IH. split.
    + intros [Hx Hl] y [->|Hy]%elem_of_cons; auto.
    + intros H. split; [apply H; by left|]. intros y Hy. apply H. by right.
Qed.

Lemma node_tags_without name n : ∀ ps pv,
  has_element name n = false ->
  filter (fun t => tag_name t = name) (Soup.node_tags ps pv n) = [].
Proof.
  induction n as [s|nm at_ ch IH] using node_ind'; intros ps pv Hn; [done|].
  rewrite node_tags_element. rewrite has_element_element in Hn.
  apply orb_false_iff in Hn as [Hnm Hch]. apply bool_decide_eq_false in Hnm.
  rewrite filter_cons, decide_False by done.
  generalize (@None string). generalize (nm :: ps). clear Hnm.
  induction ch as [|x ch IHch]; intros ps' pv'; [done|].
  cbn [forest_has_element] in Hch. apply orb_false_iff in Hch as [Hx Hch].
  apply Forall_cons in IH as [IHx IH].
  cbn [Soup.forest_tags]. rewrite filter_app, (IHx ps' pv' Hx). by apply IHch.
Qed.

Lemma forest_tags_without name l : ∀ ps pv,
  forest_has_element name l = false ->
  filter (fun t => tag_name t = name) (Soup.forest_tags ps pv l) = [].
Proof.
  induction l as [|x l IH]; intros ps pv Hl; [done|].
  cbn [forest_has_element] in Hl. apply orb_false_iff in Hl as [Hx Hl].
  cbn [Soup.forest_tags]. rewrite filter_app, (node_tags_without name x ps pv Hx).
  by apply IH.
Qed.

(** The first element of a given name, when it is a child of the tag and
    no child before it holds one. *)
Lemma find_child name t before at_ ch after :
  tag_children t = before ++ Element name at_ ch :: after ->
  forest_has_element name before = false ->
  Soup.find name t
  = Some (Tag (tag_name t :: tag_parents t) (foldl Soup.next_prev None before)
              name at_ ch).
Proof.
  intros Hch Hbefore. unfold Soup.find, Soup.find_all, Soup.descendants.
  rewrite Hch, forest_tags_app, filter_app, (forest_tags_without _ _ _ _ Hbefore).
  cbn [app Soup.forest_tags]. rewrite node_tags_element.
  cbn [app]. by rewrite filter_cons, decide_True.
Qed.

Lemma find_none name t :
  forest_has_element name (tag_children t) = false -> Soup.find name t = None.
Proof.
  intros Hch. unfold Soup.find, Soup.find_all, Soup.descendants.
  by rewrite (forest_tags_without _ _ _ _ Hch).
Qed.

(** * Description cell *)

Lemma truthy_opt_clean s :
  truthy_opt (clean_text (Some s)) = bool_decide (is_Some (clean_text (Some s))).
Proof.
  rewrite clean_text_tidy. by destruct (tidy s).
Qed.

Lemma effect_texts_omap items : effect_texts items = omap tag_text items.
Proof.
  induction items as [|li items IH]; [done|]. cbn [effect_texts omap list_omap].
  rewrite truthy_opt_clean, IH. unfold tag_text.
  by destruct (clean_text (Some (Soup.get_text " " li))) as [r|].
Qed.

Lemma summary_parts_before before n after :
  is_ul n = true -> (∀ x, x ∈ before -> is_ul x = false) ->
  summary_parts (before ++ n :: after) = omap node_text before.
Proof.
  intros Hn Hbefore. induction before as [|x before IH].
  - simpl. by rewrite Hn.
  - cbn [app summary_parts omap list_omap].
    rewrite (Hbefore x) by by left. rewrite truthy_opt_clean.
    rewrite IH by (intros y Hy; apply Hbefore; by right). unfold node_text.
    by destruct (clean_text (Some (child_text x))) as [r|].
Qed.

Lemma has_element_is_ul x : has_element "ul" x = false -> is_ul x = false.
Proof.
  destruct x as [s|nm at_ ch]; [done|]. rewrite has_element_element.
  by intros [? _]%orb_false_iff.
Qed.

Lemma quotation_mark_not_space : PyStr.is_space quotation_mark = false.
Proof. done. Qed.

(** The test of the flavour loop is the test for a quotation mark in the
    text of the element. *)
Lemma flavor_test ital :
  truthy_opt (tag_text ital) && PyStr.has_char quotation_mark (default "" (tag_text ital))
  = quotes ital.
Proof.
  unfold tag_text, quotes. rewrite clean_text_tidy.
  rewrite <- (has_char_tidy quotation_mark (Soup.get_text " " ital)
                quotation_mark_not_space).
  by destruct (tidy (Soup.get_text " " ital)).
Qed.

Lemma flavor_value ital :
  quotes ital = true ->
  clean_text (Some (PyStr.strip (default "" (tag_text ital)))) = tag_text ital.
Proof.
  unfold tag_text, quotes.
  rewrite <- (has_char_tidy quotation_mark (Soup.get_text " " ital)
                quotation_mark_not_space).
  rewrite (clean_text_tidy (Soup.get_text " " ital)).
  destruct (tidy (Soup.get_text " " ital)) as [|c r] eqn:Ht; [done|].
  cbn [PyStr.or_none PyStr.truthy default]. unfold id. intros _.
  by rewrite <- Ht, strip_tidy, clean_text_tidy, tidy_idempotent, Ht.
Qed.

Lemma scan_flavor_first before ital after :
  (∀ x, x ∈ before -> quotes x = false) -> quotes ital = true ->
  clean_text (scan_flavor (before ++ ital :: after)) = tag_text ital.
Proof.
  intros Hno Hq. induction before as [|b before IH]; cbn [app scan_flavor].
  - fold (tag_text ital). rewrite flavor_test, Hq. by apply flavor_value.
  - fold (tag_text b). rewrite flavor_test, (Hno b) by by left.
    apply IH. intros x Hx. apply Hno. by right.
Qed.

Lemma scan_flavor_none itals :
  (∀ x, x ∈ itals -> quotes x = false) -> scan_flavor itals = None.
Proof.
  induction itals as [|b itals IH]; [done|]. intros Hno. cbn [scan_flavor].
  fold (tag_text b). rewrite flavor_test, (Hno b) by by left.
  apply IH. intros x Hx. apply Hno. by right.
Qed.

(** The text of a cell is empty exactly when the cell shows nothing. *)
Lemma nonspace_app (a b : string) : nonspace (a +:+ b) = nonspace a +:+ nonspace b.
Proof.
  induction a as [|c a IH]; [done|]. rewrite app_cons. simpl.
  destruct (PyStr.is_space c); [done|]. by rewrite app_cons, IH.
Qed.

Lemma app_empty (a b : string) : a +:+ b = "" <-> a = "" ∧ b = "".
Proof.
  destruct a as [|c a].
  - rewrite app_empty_l. naive_solver.
  - rewrite app_cons. naive_solver.
Qed.

Lemma nonspace_join l :
  nonspace (PyStr.join " " l) = "" <-> ∀ s, s ∈ l -> nonspace s = "".
Proof.
  unfold PyStr.join. induction l as [|x l IH].
  - split; [|done]. intros _ s Hs. by apply elem_of_nil in Hs.
  - destruct l as [|y l].
    + cbn [String.concat]. split.
      * by intros Hx s ->%list_elem_of_singleton.
      * intros H. apply H. by left.
    + change (String.concat " " (x :: y :: l))
        with (x +:+ " " +:+ String.concat " " (y :: l)).
      rewrite !nonspace_app, !app_empty, IH. split.
      * intros (Hx & _ & Hl) s [->|Hs]%elem_of_cons; auto.
      * intros H. split; [apply H; by left|]. split; [done|].
        intros s Hs. apply H. by right.
Qed.

Lemma elem_of_stripped_strings s l :
  s ∈ Soup.stripped_strings l
  <-> s ≠ "" ∧ ∃ s0, s0 ∈ Soup.forest_strings l ∧ s = PyStr.strip s0.
Proof.
  unfold Soup.stripped_strings.
  rewrite list_elem_of_filter, list_elem_of_fmap, Is_true_true, truthy_ne.
  naive_solver.
Qed.

Lemma tag_text_none t : tag_text t = None <-> ¬ visible t.
Proof.
  unfold tag_text, visible, Soup.get_text. rewrite clean_text_none, nonspace_join.
  split.
  - intros Hall (s0 & Hs0 & Hv). apply Hv. rewrite <- nonspace_strip.
    destruct (decide (PyStr.strip s0 = "")) as [->|Hne]; [done|].
    apply Hall, elem_of_stripped_strings. eauto.
  - intros Hno s (Hne & s0 & Hs0 & ->)%elem_of_stripped_strings.
    rewrite nonspace_strip. destruct (decide (nonspace s0 = "")) as [|Hv]; [done|].
    destruct Hno. eauto.
Qed.

(** The fields of the description, one by one. *)
Lemma description_raw_text cell :
  raw_text (extract_description_parts (Some cell)) = tag_text cell.
Proof. done. Qed.

Lemma description_flavor_text cell :
  flavor_text (extract_description_parts (Some cell))
  = clean_text (scan_flavor (Soup.select_p_i cell)).
Proof. done. Qed.

(** C4, as the code has it.  When the first bulleted list of the cell is a
    child of the cell (no child before it holds a list), [summary] is the
    normalised text of the children before that list, each normalised and
    the non-empty ones joined by blanks, and [effects] holds the normalised
    text of the items of that list, in document order, the items without
    text left out.  In a cell without a bulleted list [summary] is unset
    and [effects] is empty. *)
Theorem description_summary_and_effects (cell : tag) :
  (∀ before at_ ch after,
      tag_children cell = before ++ Element "ul" at_ ch :: after ->
      forest_has_element "ul" before = false ->
      ∃ ul, Soup.find "ul" cell = Some ul
            ∧ tag_children ul = ch
            ∧ summary (extract_description_parts (Some cell))
              = clean_text (Some (PyStr.join " " (omap node_text before)))
            ∧ effects (extract_description_parts (Some cell))
              = omap tag_text (Soup.find_all "li" ul))
  ∧ (forest_has_element "ul" (tag_children cell) = false ->
     summary (extract_description_parts (Some cell)) = None
     ∧ effects (extract_description_parts (Some cell)) = []).
Proof.
  split.
  - intros before at_ ch after Hch Hbefore.
    eexists. split; [by apply (find_child "ul" cell before at_ ch after)|].
    split; [done|]. unfold extract_description_parts.
    rewrite (find_child "ul" cell before at_ ch after Hch Hbefore).
    cbn [summary effects]. split; [|apply effect_texts_omap].
    rewrite Hch, summary_parts_before; [done|done|].
    intros x Hx. apply has_element_is_ul.
    by apply (proj1 (forest_has_element_false "ul" before) Hbefore).
  - intros Hno. unfold extract_description_parts. rewrite (find_none "ul" cell Hno).
    done.
Qed.

(** The claim C4 as it is written fails: of the three list items of this
    cell, two of them in its first list, one has no text and one is in a
    second list, and [effects] has a single entry. *)
Lemma effects_not_one_per_list_item :
  effects (extract_description_parts (Some Fixtures.two_lists_cell)) = ["Heals faster"]
  ∧ length (Soup.find_all "li" Fixtures.two_lists_cell) = 3
  ∧ ∃ ul, Soup.find "ul" Fixtures.two_lists_cell = Some ul
          ∧ tag_children ul = Fixtures.first_list
          ∧ length (Soup.find_all "li" ul) = 2.
Proof.
  split; [vm_compute; reflexivity|]. split; [vm_compute; reflexivity|].
  eexists. split; [vm_compute; reflexivity|]. split; reflexivity.
Qed.

(** C7, as the code has it.  [flavor_text] is the normalised text of the
    first italic element below a paragraph, in document order, whose text
    holds a quotation mark, and is unset when there is none.  [raw_text]
    is the normalised text of the whole cell; it is unset exactly when
    the cell shows no text. *)
Theorem description_flavor_and_raw_text (cell : tag) :
  (∀ t, t ∈ Soup.select_p_i cell
        <-> t ∈ Soup.descendants cell ∧ tag_name t = "i" ∧ "p" ∈ tag_parents t)
  ∧ (∀ before ital after,
        Soup.select_p_i cell = before ++ ital :: after ->
        (∀ x, x ∈ before -> quotes x = false) -> quotes ital = true ->
        flavor_text (extract_description_parts (Some cell)) = tag_text ital)
  ∧ ((∀ x, x ∈ Soup.select_p_i cell -> quotes x = false) ->
     flavor_text (extract_description_parts (Some cell)) = None)
  ∧ raw_text (extract_description_parts (Some cell)) = tag_text cell
  ∧ (raw_text (extract_description_parts (Some cell)) = None <-> ¬ visible cell).
Proof.
  split.
  { intros t. unfold Soup.select_p_i, Soup.is_p_i.
    rewrite list_elem_of_filter, andb_True, !bool_decide_spec. naive_solver. }
  split.
  { intros before ital after Hsel Hno Hq.
    rewrite description_flavor_text, Hsel. by apply scan_flavor_first. }
  split.
  { intros Hno. by rewrite description_flavor_text, scan_flavor_none. }
  split; [done|]. rewrite description_raw_text. apply tag_text_none.
Qed.

(** The claim C7 as it is written fails: this cell exists and its
    [raw_text] is unset. *)
Lemma raw_text_unset_in_cell_without_text :
  raw_text (extract_description_parts (Some Fixtures.image_only_cell)) = None.
Proof. vm_compute. reflexivity. Qed.

(** * Category traversal: termination and result *)

Lemma member_cat_spec m c : member_cat m = Some c <-> is_cat_member m c.
Proof.
  unfold member_cat, is_cat_member. destruct (title m) as [t|]; [|naive_solver].
  destruct (PyStr.truthy t) eqn:Ht; simpl.
  - apply truthy_ne in Ht. case_bool_decide; naive_solver.
  - assert (t = "") as -> by (destruct t; [done|discriminate]). naive_solver.
Qed.

Lemma member_page_spec m t : member_page m = Some t <-> is_page_member m t.
Proof.
  unfold member_page, is_page_member. destruct (title m) as [t0|]; [|naive_solver].
  destruct (PyStr.truthy t0) eqn:Ht; simpl.
  - apply truthy_ne in Ht. repeat case_bool_decide; simpl; naive_solver.
  - assert (t0 = "") as -> by (destruct t0; [done|discriminate]). naive_solver.
Qed.

Lemma visit_member_eq q pg m :
  visit_member (q, pg) m
  = (q ++ option_list (member_cat m), pg ∪ list_to_set (option_list (member_page m))).
Proof.
  unfold visit_member, member_cat, member_page.
  destruct (title m) as [t|]; simpl.
  - destruct (PyStr.truthy t); simpl.
    + repeat case_bool_decide; simpl; try congruence;
        rewrite ?app_nil_r; f_equal; set_solver.
    + rewrite app_nil_r. f_equal. set_solver.
  - rewrite app_nil_r. f_equal. set_solver.
Qed.

Lemma visit_members_eq ms : ∀ q pg,
  fold_left visit_member ms (q, pg)
  = (q ++ omap member_cat ms, pg ∪ list_to_set (omap member_page ms)).
Proof.
  induction ms as [|m ms IH]; intros q pg; cbn [fold_left].
  - simpl. rewrite app_nil_r. f_equal. set_solver.
  - rewrite visit_member_eq, IH, <- app_assoc. f_equal.
    + f_equal. simpl. destruct (member_cat m); done.
    + simpl. destruct (member_page m); simpl; set_solver.
Qed.

Lemma length_omap_le {A B} (f : A -> option B) (l : list A) :
  length (omap f l) ≤ length l.
Proof.
  induction l as [|x l IH]; [done|]. cbn [omap list_omap length].
  destruct (f x); cbn [length]; lia.
Qed.

Section Traversal.

Variable w : wiki.

Lemma elem_of_new_cats c cat :
  c ∈ omap member_cat (iter_category_members w cat) <-> subcat w cat c.
Proof.
  rewrite list_elem_of_omap. unfold subcat.
  by setoid_rewrite member_cat_spec.
Qed.

Lemma elem_of_new_pages t cat :
  t ∈ omap member_page (iter_category_members w cat) <-> lists_page w cat t.
Proof.
  rewrite list_elem_of_omap. unfold lists_page.
  by setoid_rewrite member_page_spec.
Qed.

(** The step, written out. *)
Lemma step_seen st cat q :
  queue st = cat :: q -> cat ∈ seen_cats st ->
  step w st = Some (mkState (seen_cats st) q (pages st) (enumerated st)).
Proof. intros Hq Hin. unfold step. rewrite Hq, bool_decide_true; done. Qed.

Lemma step_fresh st cat q :
  queue st = cat :: q -> cat ∉ seen_cats st ->
  step w st
  = Some (mkState (seen_cats st ∪ {[cat]})
            (q ++ omap member_cat (iter_category_members w cat))
            (pages st ∪ list_to_set (omap member_page (iter_category_members w cat)))
            (enumerated st ++ [cat])).
Proof.
  intros Hq Hin. unfold step. rewrite Hq, bool_decide_false by done.
  by rewrite visit_members_eq.
Qed.

Lemma step_none st : step w st = None <-> queue st = [].
Proof.
  unfold step. destruct (queue st) as [|cat q]; [done|].
  case_bool_decide; [done|]. destruct (fold_left _ _ _). done.
Qed.

(** Every turn lowers the potential. *)
Lemma sum_filter_le {A} (f : A -> nat) (P P' : A -> Prop)
    `{!∀ x, Decision (P x)} `{!∀ x, Decision (P' x)} (l : list A) :
  (∀ x, P' x -> P x) ->
  sum_list_with f (filter P' l) ≤ sum_list_with f (filter P l).
Proof.
  intros Hsub. induction l as [|x l IH]; [done|].
  rewrite !filter_cons. destruct (decide (P' x)) as [HP'|HP'].
  - rewrite decide_True by auto. simpl. lia.
  - destruct (decide (P x)); simpl; lia.
Qed.

Lemma sum_filter_drop {A} (f : A -> nat) (P P' : A -> Prop)
    `{!∀ x, Decision (P x)} `{!∀ x, Decision (P' x)} (l : list A) x :
  (∀ x, P' x -> P x) -> x ∈ l -> P x -> ¬ P' x ->
  sum_list_with f (filter P' l) + f x ≤ sum_list_with f (filter P l).
Proof.
  intros Hsub Hin HP HP'. induction l as [|y l IH]; [by apply elem_of_nil in Hin|].
  rewrite !filter_cons. apply elem_of_cons in Hin as [<-|Hin].
  - rewrite decide_False, decide_True by done. simpl.
    pose proof (sum_filter_le f P P' l Hsub). lia.
  - specialize (IH Hin). destruct (decide (P' y)) as [Hy|Hy].
    + rewrite decide_True by auto. simpl. lia.
    + destruct (decide (P y)); simpl; lia.
Qed.

Lemma potential_step st st' :
  step w st = Some st' -> potential w st' < potential w st.
Proof.
  destruct (queue st) as [|cat q] eqn:Hq.
  { intros Hs. apply step_none in Hq. congruence. }
  destruct (decide (cat ∈ seen_cats st)) as [Hin|Hin].
  - rewrite (step_seen st cat q Hq Hin). intros [= <-].
    unfold potential. rewrite Hq. simpl. lia.
  - rewrite (step_fresh st cat q Hq Hin). intros [= <-].
    unfold potential. rewrite Hq. cbn [queue seen_cats].
    rewrite length_app. cbn [length].
    pose proof (length_omap_le member_cat (iter_category_members w cat)) as Hlen.
    set (P := fun e : string * list (list member) => unseen (seen_cats st) e : Prop).
    set (P' := fun e : string * list (list member) =>
                 unseen (seen_cats st ∪ {[cat]}) e : Prop).
    assert (Hsub : ∀ e, P' e -> P e).
    { intros e. unfold P, P', unseen.
      rewrite !bool_decide_spec. set_solver. }
    destruct (w !! cat) as [bs|] eqn:Hw.
    + pose proof (sum_filter_drop weight P P' (map_to_list w) (cat, bs) Hsub) as Hd.
      unfold iter_category_members in *. rewrite Hw in *. simpl in Hlen.
      assert (weight (cat, bs) = S (length (concat bs))) as Hwt by done.
      rewrite Hwt in Hd. simpl.
      assert (sum_list_with weight (filter P' (map_to_list w)) + S (length (concat bs))
              ≤ sum_list_with weight (filter P (map_to_list w))) as Hd'.
      { apply Hd.
        - by apply elem_of_map_to_list.
        - unfold P, unseen. by rewrite bool_decide_spec.
        - unfold P', unseen. rewrite bool_decide_spec. set_solver. }
      lia.
    + pose proof (sum_filter_le weight P P' (map_to_list w) Hsub) as Hd.
      unfold iter_category_members in *. rewrite Hw in *. simpl in *. lia.
Qed.

Lemma loop_terminates fuel : ∀ st,
  potential w st ≤ fuel -> is_Some (loop fuel w st).
Proof.
  induction fuel as [|fuel IH]; intros st Hp; simpl.
  - destruct (step w st) as [st'|] eqn:Hs; [|done].
    apply potential_step in Hs. lia.
  - destruct (step w st) as [st'|] eqn:Hs; [|done].
    apply potential_step in Hs. apply IH. lia.
Qed.

Lemma sum_filter_all {A} (f : A -> nat) (P : A -> Prop)
    `{!∀ x, Decision (P x)} (l : list A) :
  sum_list_with f (filter P l) ≤ sum_list_with f l.
Proof.
  induction l as [|x l IH]; [done|]. rewrite filter_cons.
  destruct (decide (P x)); simpl; lia.
Qed.

(** More turns than needed change nothing. *)
Lemma loop_more_fuel fuel extra : ∀ st st',
  loop fuel w st = Some st' -> loop (fuel + extra) w st = Some st'.
Proof.
  induction fuel as [|fuel IH]; intros st st'; simpl.
  - destruct (step w st) as [st1|] eqn:Hs; [done|]. intros [= <-].
    destruct extra; simpl; by rewrite Hs.
  - destruct (step w st) as [st1|] eqn:Hs; [apply IH|done].
Qed.

Lemma potential_init : potential w init ≤ turns w.
Proof.
  unfold potential, turns. cbn [queue init length seen_cats].
  pose proof (sum_filter_all weight (fun e => unseen ∅ e : Prop) (map_to_list w)).
  lia.
Qed.

(** The invariant holds at the start and is kept by every turn. *)
Lemma inv_init : traversal_inv w init.
Proof.
  split; cbn [init seen_cats queue pages enumerated].
  - intros c [Hc|Hc]; [set_solver|]. apply list_elem_of_singleton in Hc as ->.
    constructor.
  - right. by apply list_elem_of_singleton.
  - set_solver.
  - intros t. split; [set_solver|]. intros (c & Hc & _). set_solver.
  - intros c. split; [by intros ?%elem_of_nil|set_solver].
  - constructor.
Qed.

Lemma inv_step st st' :
  traversal_inv w st -> step w st = Some st' -> traversal_inv w st'.
Proof.
  intros [Hreach Hroot Hclosed Hpages Hlog Honce].
  destruct (queue st) as [|cat q] eqn:Hq.
  { intros Hs. apply step_none in Hq. congruence. }
  destruct (decide (cat ∈ seen_cats st)) as [Hin|Hin].
  - rewrite (step_seen st cat q Hq Hin). intros [= <-].
    split; cbn [seen_cats queue pages enumerated]; try done.
    + intros c [Hc|Hc]; apply Hreach; [by left|right]. by apply elem_of_cons; right.
    + destruct Hroot as [?|[->|?]%elem_of_cons]; auto.
    + intros c c' Hc Hsub.
      destruct (Hclosed c c' Hc Hsub) as [?|[->|?]%elem_of_cons]; auto.
  - rewrite (step_fresh st cat q Hq Hin). intros [= <-].
    assert (Hcat : reachable w cat).
    { apply Hreach. right. by apply elem_of_cons; left. }
    split; cbn [seen_cats queue pages enumerated].
    + intros c [[Hc| ->%elem_of_singleton]%elem_of_union
               |[Hc|Hc%elem_of_new_cats]%elem_of_app]; auto.
      * apply Hreach. right. by apply elem_of_cons; right.
      * by apply reach_sub with cat.
    + destruct Hroot as [?|[->|?]%elem_of_cons].
      * left. set_solver.
      * left. set_solver.
      * right. apply elem_of_app. by left.
    + intros c c' [Hc| ->%elem_of_singleton]%elem_of_union Hsub.
      * destruct (Hclosed c c' Hc Hsub) as [?|[->|?]%elem_of_cons].
        -- left. set_solver.
        -- left. set_solver.
        -- right. apply elem_of_app. by left.
      * right. apply elem_of_app. right. by apply elem_of_new_cats.
    + intros t. rewrite elem_of_union, elem_of_list_to_set, elem_of_new_pages, Hpages.
      split.
      * intros [(c & Hc & Hl)|Hl].
        -- exists c. split; [set_solver|done].
        -- exists cat. split; [set_solver|done].
      * intros (c & [Hc| ->%elem_of_singleton]%elem_of_union & Hl); [left|right]; eauto.
    + intros c. rewrite elem_of_app, list_elem_of_singleton, Hlog. set_solver.
    + apply NoDup_app. split; [done|]. split; [|apply NoDup_singleton].
      intros c Hc ->%list_elem_of_singleton. by apply Hlog in Hc.
Qed.

Lemma loop_inv fuel : ∀ st st',
  traversal_inv w st -> loop fuel w st = Some st' ->
  traversal_inv w st' ∧ queue st' = [].
Proof.
  induction fuel as [|fuel IH]; intros st st' Hinv; simpl.
  - destruct (step w st) as [st1|] eqn:Hs; [done|]. intros [= <-].
    split; [done|]. by apply step_none.
  - destruct (step w st) as [st1|] eqn:Hs.
    + apply IH. by apply inv_step with st.
    + intros [= <-]. split; [done|]. by apply step_none.
Qed.

(** With an empty queue, the categories seen are the reachable ones. *)
Lemma final_seen st :
  traversal_inv w st -> queue st = [] ->
  ∀ c, c ∈ seen_cats st <-> reachable w c.
Proof.
  intros [Hreach Hroot Hclosed _ _ _] Hq c. rewrite Hq in *. split.
  - intros Hc. apply Hreach. by left.
  - induction 1 as [|c c' _ IH Hsub].
    + destruct Hroot as [?|?%elem_of_nil]; done.
    + destruct (Hclosed c c' IH Hsub) as [?|?%elem_of_nil]; done.
Qed.

Lemma final_pages st :
  traversal_inv w st -> queue st = [] ->
  ∀ t, t ∈ pages st <-> page_reachable w t.
Proof.
  intros Hinv Hq t. rewrite (inv_pages w st Hinv). unfold page_reachable.
  by setoid_rewrite (final_seen st Hinv Hq).
Qed.

Lemma traversal_result :
  ∃ st, loop (turns w) w init = Some st ∧ traversal_inv w st ∧ queue st = [].
Proof.
  destruct (loop_terminates (turns w) init potential_init) as [st Hst].
  exists st. split; [done|]. by apply loop_inv with (turns w) init; [apply inv_init|].
Qed.

End Traversal.

(** The sorted list of a set of titles. *)
Lemma sorted_Sorted pg : Sorted String.le (sorted pg).
Proof. apply Sorted_merge_sort. apply _. Qed.

Lemma sorted_elem pg t : t ∈ sorted pg <-> t ∈ pg.
Proof. unfold sorted. by rewrite merge_sort_Permutation, elem_of_elements. Qed.

Lemma sorted_NoDup pg : NoDup (sorted pg).
Proof. unfold sorted. rewrite merge_sort_Permutation. apply NoDup_elements. Qed.

Lemma sorted_lists_unique (l1 l2 : list string) :
  Sorted String.le l1 -> Sorted String.le l2 -> NoDup l1 -> NoDup l2 ->
  (∀ t, t ∈ l1 <-> t ∈ l2) -> l1 = l2.
Proof.
  intros H1 H2 N1 N2 Hel. apply (Sorted_unique String.le); [done..|].
  by apply NoDup_Permutation.
Qed.

Lemma same_edges_reachable (w w' : wiki) :
  (∀ c, reachable w c ->
        ∀ m, m ∈ iter_category_members w' c <-> m ∈ iter_category_members w c) ->
  ∀ c, reachable w' c <-> reachable w c.
Proof.
  intros Hsame c. split.
  - induction 1 as [|c c' _ IH (m & Hm & Hc)]; [constructor|].
    apply reach_sub with c; [done|]. exists m. split; [|done]. by apply Hsame.
  - induction 1 as [|c c' Hr IH (m & Hm & Hc)]; [constructor|].
    apply reach_sub with c; [done|]. exists m. split; [|done]. by apply Hsame.
Qed.

Lemma same_edges_pages (w w' : wiki) :
  (∀ c, reachable w c ->
        ∀ m, m ∈ iter_category_members w' c <-> m ∈ iter_category_members w c) ->
  ∀ t, page_reachable w' t <-> page_reachable w t.
Proof.
  intros Hsame t. unfold page_reachable. split.
  - intros (c & Hc & m & Hm & Hp). apply (same_edges_reachable w w' Hsame) in Hc.
    exists c. split; [done|]. exists m. split; [|done]. by apply Hsame.
  - intros (c & Hc & m & Hm & Hp). exists c.
    split; [by apply (same_edges_reachable w w' Hsame)|].
    exists m. split; [|done]. by apply Hsame.
Qed.

Lemma discover_spec (w : wiki) :
  ∃ l, discover_item_pages w = Some l
       ∧ NoDup l ∧ Sorted String.le l ∧ ∀ t, t ∈ l <-> page_reachable w t.
Proof.
  destruct (traversal_result w) as (st & Hloop & Hinv & Hq).
  exists (sorted (pages st)). unfold discover_item_pages. rewrite Hloop.
  split; [done|]. split; [apply sorted_NoDup|]. split; [apply sorted_Sorted|].
  intros t. rewrite sorted_elem. by apply final_pages.
Qed.

(** C1. For every category graph, cycles included, the traversal of
    [discover_item_pages] terminates: the loop, given [turns w] turns or
    more, stops with an empty queue.  It enumerates the members of each
    category at most once: the log of the enumerated categories has no
    duplicate, and it holds exactly the categories reachable from the
    root, which are then the categories seen. *)
Theorem traversal_terminates_each_category_once (w : wiki) :
  ∃ st, (∀ extra, loop (turns w + extra) w init = Some st)
        ∧ queue st = []
        ∧ NoDup (enumerated st)
        ∧ (∀ c, c ∈ enumerated st <-> reachable w c)
        ∧ (∀ c, c ∈ seen_cats st <-> reachable w c)
        ∧ discover_item_pages w = Some (sorted (pages st)).
Proof.
  destruct (traversal_result w) as (st & Hloop & Hinv & Hq).
  exists st. split; [intros extra; by apply loop_more_fuel|]. split; [done|].
  split; [apply (inv_once w st Hinv)|]. split; [|split].
  - intros c. rewrite (inv_log w st Hinv). by apply final_seen.
  - by apply final_seen.
  - unfold discover_item_pages. by rewrite Hloop.
Qed.

(** C2. The list [discover_item_pages] returns has no duplicate, is sorted
    in lexicographic order, and holds exactly the page titles listed by a
    category reachable from the root; so it is the same for any wiki with
    the same members in every reachable category, in whatever order and
    batches they are listed. *)
Theorem discover_sorted_unique_order_free (w : wiki) :
  ∃ l, discover_item_pages w = Some l
       ∧ NoDup l
       ∧ Sorted String.le l
       ∧ (∀ t, t ∈ l <-> page_reachable w t)
       ∧ ∀ w' : wiki,
           (∀ c, reachable w c ->
                 ∀ m, m ∈ iter_category_members w' c
                      <-> m ∈ iter_category_members w c) ->
           discover_item_pages w' = Some l.
Proof.
  destruct (discover_spec w) as (l & Hl & Hnd & Hs & Hel).
  exists l. do 4 (split; [done|]). intros w' Hsame.
  destruct (discover_spec w') as (l' & Hl' & Hnd' & Hs' & Hel').
  rewrite Hl'. f_equal. apply sorted_lists_unique; try done.
  intros t. rewrite Hel, Hel'. by apply same_edges_pages.
Qed.

(** * Item page *)

Section PageFacts.

Variable api : string -> transport.
Variable lxml : string -> list node.

Lemma parse_item_page_ok title p :
  api title = Decoded (Some p) -> parse_truthy (Some p) = true ->
  parse_item_page api lxml title = Ok (build_item lxml title p).
Proof.
  intros Hapi Ht. unfold parse_item_page, fetch_parse. by rewrite Hapi, Ht.
Qed.

Lemma parse_item_page_missing title o :
  api title = Decoded o -> parse_truthy o = false ->
  parse_item_page api lxml title = Raise (missing_parse title).
Proof.
  intros Hapi Ht. unfold parse_item_page, fetch_parse. by rewrite Hapi, Ht.
Qed.

Lemma parse_item_page_missing_inv title :
  parse_item_page api lxml title = Raise (missing_parse title) ->
  ∃ o, api title = Decoded o ∧ parse_truthy o = false.
Proof.
  unfold parse_item_page, fetch_parse, missing_parse.
  destruct (api title) as [d|d|o] eqn:Hapi.
  - intros H. exfalso. injection H. intros. discriminate.
  - intros H. exfalso. injection H. intros. discriminate.
  - intros H. exists o. split; [done|]. destruct (parse_truthy o) eqn:Ht; [|done].
    simpl in H. by destruct o.
Qed.

Lemma select_wikitable_none soup :
  (∀ t, t ∈ Soup.forest_tags [] None soup -> Soup.is_wikitable t = false) ->
  Soup.select_wikitable soup = None.
Proof.
  intros Hno. unfold Soup.select_wikitable.
  destruct (filter _ _) as [|t l] eqn:Hf; [done|].
  assert (t ∈ filter (fun t => Soup.is_wikitable t) (Soup.forest_tags [] None soup)) as Ht.
  { rewrite Hf. by left. }
  apply list_elem_of_filter in Ht as [Hw Hin]. rewrite (Hno t Hin) in Hw. done.
Qed.

(** The loop of [main] over the titles, cut in two. *)
Lemma scrape_fold titles : ∀ acc,
  fold_left (scrape_one api lxml) titles acc
  = (acc.1 ++ (scrape api lxml titles).1, acc.2 ++ (scrape api lxml titles).2).
Proof.
  unfold scrape. induction titles as [|t titles IH]; intros [its errs].
  - simpl. by rewrite !app_nil_r.
  - cbn [fold_left]. rewrite IH, (IH (scrape_one api lxml ([], []) t)).
    unfold scrape_one. destruct (parse_item_page api lxml t); simpl;
      by rewrite <- ?app_assoc.
Qed.

Lemma scrape_app l1 l2 :
  scrape api lxml (l1 ++ l2)
  = ((scrape api lxml l1).1 ++ (scrape api lxml l2).1,
     (scrape api lxml l1).2 ++ (scrape api lxml l2).2).
Proof.
  unfold scrape at 1. rewrite fold_left_app, scrape_fold. f_equal.
Qed.

Lemma scrape_cons t l :
  scrape api lxml (t :: l)
  = ((scrape_one api lxml ([], []) t).1 ++ (scrape api lxml l).1,
     (scrape_one api lxml ([], []) t).2 ++ (scrape api lxml l).2).
Proof. unfold scrape at 1. cbn [fold_left]. by rewrite scrape_fold. Qed.

End PageFacts.

(** C3. When the response has a parse result and the document has no
    table of class [wikitable], [parse_item_page] raises nothing: it
    returns the record with no icon, no amount and no currency, and the
    empty description, under the title, with the URL made from the title
    and with the filtered categories (from which the rarity is still
    read). *)
Theorem page_without_table_gives_record
    (api : string -> transport) (lxml : string -> list node)
    (title : string) (p : parse_obj) :
  api title = Decoded (Some p) ->
  parse_truthy (Some p) = true ->
  (∀ t, t ∈ Soup.forest_tags [] None (lxml (page_html p)) ->
        Soup.is_wikitable t = false) ->
  parse_item_page api lxml title
  = Ok (mkItem title (canonical_page_url title) (infer_rarity (page_categories p))
          None (mkParsedCost None None) (mkDescription None [] None None)
          (page_categories p)).
Proof.
  intros Hapi Ht Hno. rewrite (parse_item_page_ok api lxml title p Hapi Ht).
  unfold build_item, extract_table. by rewrite (select_wikitable_none _ Hno).
Qed.

(** C9. [parse_item_page] raises the [FetchError] with the missing-parse
    message exactly when the response was decoded and has no parse result
    (none, or an empty one).  In the loop of [main] such a title adds the
    pair of the title and that message to the errors and no item, and the
    titles before and after it are handled as they would be on their
    own. *)
Theorem missing_parse_raises_and_is_recorded
    (api : string -> transport) (lxml : string -> list node) :
  (∀ title,
      parse_item_page api lxml title
      = Raise (FetchError ("Missing parse output for page: " +:+ title))
      <-> ∃ o, api title = Decoded o ∧ parse_truthy o = false)
  ∧ (∀ before title after o,
        api title = Decoded o -> parse_truthy o = false ->
        scrape api lxml (before ++ title :: after)
        = ((scrape api lxml before).1 ++ (scrape api lxml after).1,
           (scrape api lxml before).2
           ++ (title, "Missing parse output for page: " +:+ title)
              :: (scrape api lxml after).2)).
Proof.
  split.
  - intros title. split; [apply parse_item_page_missing_inv|].
    intros (o & Hapi & Ht). by apply parse_item_page_missing with o.
  - intros before title after o Hapi Ht.
    rewrite scrape_app, scrape_cons. unfold scrape_one.
    rewrite (parse_item_page_missing api lxml title o Hapi Ht). done.
Qed.

(** C10. When the first cell of the data row of the table holds an image
    and the first image of that cell has no [src] attribute, or an empty
    one, [icon_url] is the empty string and not [None], because [join_url]
    gives the empty string back; [icon_url] is [None] when that cell holds
    no image. *)
Theorem icon_without_src_is_empty_string
    (api : string -> transport) (lxml : string -> list node)
    (title : string) (p : parse_obj) (table row c0 : tag) (rest : list tag) :
  api title = Decoded (Some p) ->
  parse_truthy (Some p) = true ->
  Soup.select_wikitable (lxml (page_html p)) = Some table ->
  data_row table = Some row ->
  row_cells row = c0 :: rest ->
  join_url "" = ""
  ∧ ∃ it, parse_item_page api lxml title = Ok it
          ∧ (∀ img, Soup.find "img" c0 = Some img ->
                    Soup.get "src" img = None ∨ Soup.get "src" img = Some "" ->
                    icon_url it = Some "")
          ∧ (Soup.find "img" c0 = None -> icon_url it = None).
Proof.
  intros Hapi Ht Htable Hrow Hcells. split; [done|].
  rewrite (parse_item_page_ok api lxml title p Hapi Ht). eexists. split; [done|].
  unfold build_item, extract_table. rewrite Htable, Hrow. unfold extract_row.
  rewrite Hcells. cbn [lookup list_lookup]. split.
  - intros img Himg Hsrc. rewrite Himg.
    assert (Soup.get_or_empty "src" img = "") as ->.
    { unfold Soup.get_or_empty. by destruct Hsrc as [-> | ->]. }
    by destruct (match rest !! 0 with Some _ => _ | None => _ end),
                (match rest !! 1 with Some _ => _ | None => _ end).
  - intros ->.
    by destruct (match rest !! 0 with Some _ => _ | None => _ end),
                (match rest !! 1 with Some _ => _ | None => _ end).
Qed.

(** * Further properties: text normalisation *)

(** X1. Normalising twice is normalising once. *)
Theorem clean_text_twice (o : option string) :
  clean_text (clean_text o) = clean_text o.
Proof. destruct o as [s|]; [apply clean_text_idempotent|done]. Qed.

Lemma all_space_nonspace s :
  all_chars PyStr.is_space s = true <-> nonspace s = "".
Proof.
  induction s as [|c s IH]; [done|]. simpl.
  destruct (PyStr.is_space c); simpl; [done|]. split; done.
Qed.

(** X2. [clean_text] neither drops, adds nor reorders a character that is
    not whitespace, and it gives [None] exactly for the strings made of
    whitespace only (the empty string among them). *)
Theorem clean_text_keeps_visible_characters (s : string) :
  (∀ r, clean_text (Some s) = Some r -> nonspace r = nonspace s)
  ∧ (clean_text (Some s) = None <-> all_chars PyStr.is_space s = true).
Proof.
  split.
  - intros r [-> _]%clean_text_some. apply nonspace_tidy.
  - by rewrite clean_text_none, all_space_nonspace.
Qed.

Lemma tight_inside a c d :
  tight (a +:+ String c d) = true -> PyStr.is_space c = true ->
  c = " "%char
  ∧ ∃ e d', d = String e d' ∧ PyStr.is_space e = false ∧ is_punct e = false.
Proof.
  induction a as [|x a IH].
  - rewrite app_empty_l. cbn [tight]. intros [Hc _]%andb_true_iff Hsp.
    rewrite Hsp in Hc. apply andb_true_iff in Hc as [[Hb Hn]%andb_true_iff Hp].
    split; [by apply Ascii.eqb_eq in Hb|].
    destruct d as [|e d']; [done|]. exists e, d'. simpl in Hn, Hp.
    by apply negb_true_iff in Hn, Hp.
  - rewrite app_cons. cbn [tight]. intros [_ Ht]%andb_true_iff. by apply IH.
Qed.

(** X3. The shape of a normalised text: it is not empty, it has no
    whitespace at either end, and every whitespace character in it is a
    blank that stands before a character that is neither whitespace nor
    one of the seven punctuation marks. *)
Theorem clean_text_shape (s r : string) :
  clean_text (Some s) = Some r ->
  r ≠ ""
  ∧ PyStr.strip r = r
  ∧ ∀ a c d, r = a +:+ String c d -> PyStr.is_space c = true ->
      c = " "%char
      ∧ ∃ e d', d = String e d' ∧ PyStr.is_space e = false ∧ is_punct e = false.
Proof.
  intros [-> Hne]%clean_text_some. split; [done|]. split; [apply strip_tidy|].
  intros a c d Hr Hsp. apply (tight_inside a c d); [|done]. rewrite <- Hr.
  by pose proof (normal_tidy s) as [Ht _]%andb_true_iff.
Qed.

(** * Further properties: names and URLs *)

Lemma has_char_replace old new s :
  old ≠ new -> PyStr.has_char old (PyStr.replace_char old new s) = false.
Proof.
  intros Hne. induction s as [|c s IH]; [done|]. simpl. rewrite IH, orb_false_r.
  destruct (Ascii.eqb_spec c old) as [->|Hc].
  - by apply Ascii.eqb_neq.
  - apply Ascii.eqb_neq. congruence.
Qed.

Lemma replace_char_absent old new s :
  PyStr.has_char old s = false -> PyStr.replace_char old new s = s.
Proof.
  induction s as [|c s IH]; [done|]. simpl. intros [Hc Hs]%orb_false_iff.
  rewrite (IH Hs). rewrite Ascii.eqb_sym in Hc. by rewrite Hc.
Qed.

Lemma has_char_lstrip c s :
  PyStr.has_char c s = false -> PyStr.has_char c (PyStr.lstrip s) = false.
Proof.
  induction s as [|d s IH]; [done|]. simpl. intros [Hd Hs]%orb_false_iff.
  destruct (PyStr.is_space d); [by apply IH|]. simpl. by rewrite Hd, Hs.
Qed.

Lemma has_char_rstrip c s :
  PyStr.has_char c s = false -> PyStr.has_char c (PyStr.rstrip s) = false.
Proof.
  induction s as [|d s IH]; [done|]. simpl. intros [Hd Hs]%orb_false_iff.
  specialize (IH Hs). destruct (PyStr.rstrip s) as [|e r].
  - destruct (PyStr.is_space d); [done|]. simpl. by rewrite Hd.
  - cbn [PyStr.has_char] in *. by rewrite Hd, IH.
Qed.

Lemma has_char_strip c s :
  PyStr.has_char c s = false -> PyStr.has_char c (PyStr.strip s) = false.
Proof. intros Hs. by apply has_char_rstrip, has_char_lstrip. Qed.

Lemma rstrip_rstrip s : PyStr.rstrip (PyStr.rstrip s) = PyStr.rstrip s.
Proof.
  induction s as [|c s IH]; [done|]. cbn [PyStr.rstrip].
  destruct (PyStr.rstrip s) as [|d r] eqn:Hr.
  - destruct (PyStr.is_space c) eqn:Hc; [done|]. simpl. by rewrite Hc.
  - change (PyStr.rstrip (String c (String d r)))
      with (match PyStr.rstrip (String d r) with
            | "" => if PyStr.is_space c then "" else String c ""
            | r' => String c r'
            end).
    by rewrite IH.
Qed.

Lemma strip_strip s : PyStr.strip (PyStr.strip s) = PyStr.strip s.
Proof.
  unfold PyStr.strip at 1. rewrite (lstrip_id _ (starts_space_strip s)).
  unfold PyStr.strip. apply rstrip_rstrip.
Qed.

(** X4. A normalised category name has no underscore and no whitespace at
    either end, and normalising it again changes nothing. *)
Theorem normalize_category_name_normal (cat : string) :
  PyStr.has_char "_" (normalize_category_name cat) = false
  ∧ PyStr.strip (normalize_category_name cat) = normalize_category_name cat
  ∧ normalize_category_name (normalize_category_name cat)
    = normalize_category_name cat.
Proof.
  unfold normalize_category_name.
  assert (PyStr.has_char "_" (PyStr.strip (PyStr.replace_char "_" " " cat)) = false)
    as Hno by by apply has_char_strip, has_char_replace.
  split; [done|]. split; [apply strip_strip|].
  by rewrite (replace_char_absent _ _ _ Hno), strip_strip.
Qed.

Lemma wiki_base_absolute s : is_absolute (WIKI_BASE +:+ s) = true.
Proof. done. Qed.

Lemma join_url_of_absolute p : is_absolute p = true -> join_url p = p.
Proof.
  intros Hp. unfold join_url. unfold is_absolute in Hp. rewrite Hp.
  by destruct (negb (PyStr.truthy p)).
Qed.

Lemma join_url_nonempty p : p ≠ "" -> is_absolute (join_url p) = true.
Proof.
  intros Hp. unfold join_url. apply truthy_ne in Hp. rewrite Hp. simpl negb.
  cbv iota. fold (is_absolute p). destruct (is_absolute p) eqn:Ha; [done|].
  destruct (PyStr.startswith "/" p); apply wiki_base_absolute.
Qed.

(** X5. [join_url] gives an absolute URL for every input but the empty
    string, leaves an absolute URL as it is, and joining a second time
    changes nothing. *)
Theorem join_url_absolute :
  (∀ p, p ≠ "" -> is_absolute (join_url p) = true)
  ∧ (∀ p, is_absolute p = true -> join_url p = p)
  ∧ (∀ p, join_url (join_url p) = join_url p).
Proof.
  split; [apply join_url_nonempty|]. split; [apply join_url_of_absolute|].
  intros p. destruct (decide (p = "")) as [->|Hp]; [done|].
  by apply join_url_of_absolute, join_url_nonempty.
Qed.

Lemma all_chars_app cls (a b : string) :
  all_chars cls (a +:+ b) = all_chars cls a && all_chars cls b.
Proof.
  induction a as [|c a IH]; [done|]. rewrite app_cons. simpl.
  by rewrite IH, andb_assoc.
Qed.

Lemma quote_char_quoted c : all_chars is_quoted_char (Quote.quote_char c) = true.
Proof. destruct c as [[] [] [] [] [] [] [] []]; vm_compute; reflexivity. Qed.

Lemma quote_quoted s : all_chars is_quoted_char (Quote.quote s) = true.
Proof.
  induction s as [|c s IH]; [done|]. cbn [Quote.quote].
  by rewrite all_chars_app, quote_char_quoted, IH.
Qed.

Lemma all_chars_weaken (cls cls' : ascii -> bool) s :
  (∀ c, cls c = true -> cls' c = true) ->
  all_chars cls s = true -> all_chars cls' s = true.
Proof.
  intros Hw. induction s as [|c s IH]; [done|]. simpl.
  intros [Hc Hs]%andb_true_iff. by rewrite (Hw c Hc), IH.
Qed.

(** X6. A page URL is made of ASCII letters, digits and the marks
    [_ . - ~ / : %] only, whatever the title: no blank and no character
    outside ASCII is left in it. *)
Theorem canonical_page_url_characters (title : string) :
  all_chars is_url_char (canonical_page_url title) = true.
Proof.
  unfold canonical_page_url. rewrite !all_chars_app. apply andb_true_iff.
  split; [done|]. apply andb_true_iff. split; [done|].
  apply (all_chars_weaken is_quoted_char); [|apply quote_quoted].
  intros c Hc. unfold is_url_char. by rewrite Hc.
Qed.

Lemma unquote_quote_char c rest :
  unquote (Quote.quote_char c +:+ rest) = String c (unquote rest).
Proof. destruct c as [[] [] [] [] [] [] [] []]; reflexivity. Qed.

Lemma unquote_quote s : unquote (Quote.quote s) = s.
Proof.
  induction s as [|c s IH]; [done|]. cbn [Quote.quote].
  by rewrite unquote_quote_char, IH.
Qed.

Lemma quote_inj s1 s2 : Quote.quote s1 = Quote.quote s2 -> s1 = s2.
Proof.
  intros H. apply (f_equal unquote) in H. by rewrite !unquote_quote in H.
Qed.

(** X7. Two titles have the same page URL exactly when they are equal
    once every blank is written as an underscore: quoting loses nothing
    else. *)
Theorem canonical_page_url_same_iff (t1 t2 : string) :
  canonical_page_url t1 = canonical_page_url t2
  <-> PyStr.replace_char " " "_" t1 = PyStr.replace_char " " "_" t2.
Proof.
  unfold canonical_page_url. split.
  - intros H. by apply String.app_inj, String.app_inj, quote_inj in H.
  - by intros ->.
Qed.

(** * Further properties: cost cell *)

Lemma image_currency_range img c :
  image_currency img = Some c ->
  c ∈ ["bloodpoints"; "iridescent_shards"; "auric_cells"].
Proof.
  unfold image_currency.
  destruct (PyStr.contains "bloodpoints" _); [intros [= <-]; set_solver|].
  destruct (PyStr.contains "shards" _); [intros [= <-]; set_solver|].
  destruct (_ || _); [intros [= <-]; set_solver|done].
Qed.

Lemma scan_images_range imgs c :
  scan_images imgs = Some c ->
  c ∈ ["bloodpoints"; "iridescent_shards"; "auric_cells"].
Proof.
  induction imgs as [|img imgs IH]; [done|]. simpl.
  destruct (image_currency img) as [c'|] eqn:Hi; [|done].
  intros [= <-]. by apply image_currency_range with img.
Qed.

Lemma scan_hints_range hints lower c :
  scan_hints hints lower = Some c -> c ∈ hints.*2.
Proof.
  induction hints as [|[n m] hints IH]; [done|]. simpl.
  destruct (PyStr.contains n lower).
  - intros [= <-]. by left.
  - intros H. right. by apply IH.
Qed.

(** X8. The currency of a cost cell, when there is one, is one of the
    three names [bloodpoints], [iridescent_shards] and [auric_cells]. *)
Theorem currency_is_one_of_three (td : option tag) (c : string) :
  currency (parse_cost_cell td) = Some c ->
  c ∈ ["bloodpoints"; "iridescent_shards"; "auric_cells"].
Proof.
  destruct td as [td|]; [|done]. unfold parse_cost_cell. cbn [currency].
  destruct (scan_images _) as [c'|] eqn:Hi.
  - intros [= <-]. by apply scan_images_range in Hi.
  - intros Hh%scan_hints_range. simpl in Hh. set_solver.
Qed.

Lemma span_all cls s : all_chars cls (span cls s) = true.
Proof.
  induction s as [|c s IH]; [done|]. simpl.
  destruct (cls c) eqn:Hc; [|done]. simpl. by rewrite Hc.
Qed.

Lemma first_number_shape s run :
  first_number s = Some run ->
  starts_with_class PyStr.is_digit run = true
  ∧ all_chars is_digit_or_comma run = true.
Proof.
  induction s as [|c s IH]; [done|]. simpl.
  destruct (PyStr.is_digit c) eqn:Hc; [|done].
  intros [= <-]. split; [done|]. simpl. unfold is_digit_or_comma at 1.
  by rewrite Hc, span_all.
Qed.

Lemma remove_comma_digits run :
  all_chars is_digit_or_comma run = true ->
  all_chars PyStr.is_digit (PyStr.remove_char "," run) = true.
Proof.
  induction run as [|c run IH]; [done|]. simpl.
  intros [Hc Hr]%andb_true_iff. destruct (Ascii.eqb_spec c ",") as [->|Hne].
  - by apply IH.
  - simpl. rewrite (IH Hr), andb_true_r. unfold is_digit_or_comma in Hc.
    apply orb_true_iff in Hc as [Hc|Hc%Ascii.eqb_eq]; done.
Qed.

Lemma remove_comma_nonempty run :
  starts_with_class PyStr.is_digit run = true -> PyStr.remove_char "," run ≠ "".
Proof.
  destruct run as [|c run]; [done|]. simpl. intros Hc.
  destruct (Ascii.eqb_spec c ",") as [->|Hne]; [done|done].
Qed.

(** X9. What [int] is given is never malformed: whenever the amount
    pattern matches in a text, the matched text without its commas is a
    string of decimal digits and is not empty. *)
Theorem amount_digits_well_formed (text : string) (ms : list string) :
  Re.search _AMOUNT_RE text = Some ms ->
  PyStr.remove_char "," (Re.text_from 0 ms) ≠ ""
  ∧ all_chars PyStr.is_digit (PyStr.remove_char "," (Re.text_from 0 ms)) = true.
Proof.
  intros Hs. pose proof (search_amount text) as Hf. rewrite Hs in Hf. simpl in Hf.
  symmetry in Hf. apply first_number_shape in Hf as [Hd Hr].
  split; [by apply remove_comma_nonempty|by apply remove_comma_digits].
Qed.

Lemma first_number_none_iff s :
  first_number s = None <-> all_chars not_digit s = true.
Proof.
  split; [|apply first_number_none].
  induction s as [|c s IH]; [done|]. simpl. unfold not_digit at 1.
  destruct (PyStr.is_digit c); [done|]. by intros ?%IH.
Qed.

(** X10. A cost cell has no amount exactly when its text has no digit. *)
Theorem amount_absent_iff_no_digit (td : tag) :
  amount (parse_cost_cell (Some td)) = None
  <-> all_chars not_digit (cell_text td) = true.
Proof.
  rewrite amount_first_number, <- first_number_none_iff.
  by destruct (first_number (cell_text td)).
Qed.

(** * Further properties: description cell *)

Lemma tag_text_fixed t r : tag_text t = Some r -> clean_text (Some r) = Some r.
Proof.
  unfold tag_text. intros H. rewrite <- H at 2. rewrite <- H.
  apply clean_text_idempotent.
Qed.

Lemma clean_text_fixed s : clean_text (clean_text (Some s)) = clean_text (Some s).
Proof. apply clean_text_idempotent. Qed.

Lemma clean_text_opt_fixed o : clean_text (clean_text o) = clean_text o.
Proof. destruct o; [apply clean_text_idempotent|done]. Qed.

(** X11. Every text of a description is normalised: [summary],
    [flavor_text], [raw_text] and each entry of [effects] are left as they
    are by [clean_text]; in particular no entry of [effects] is empty. *)
Theorem description_texts_normalised (desc_td : option tag) :
  clean_text (summary (extract_description_parts desc_td))
  = summary (extract_description_parts desc_td)
  ∧ clean_text (flavor_text (extract_description_parts desc_td))
    = flavor_text (extract_description_parts desc_td)
  ∧ clean_text (raw_text (extract_description_parts desc_td))
    = raw_text (extract_description_parts desc_td)
  ∧ ∀ e, e ∈ effects (extract_description_parts desc_td) ->
         e ≠ "" ∧ clean_text (Some e) = Some e.
Proof.
  destruct desc_td as [cell|].
  2:{ do 3 (split; [done|]). intros e He. by apply elem_of_nil in He. }
  unfold extract_description_parts. cbn [summary flavor_text raw_text effects].
  split; [apply clean_text_fixed|]. split; [apply clean_text_opt_fixed|].
  split; [apply clean_text_fixed|]. intros e He.
  destruct (Soup.find "ul" cell) as [ul|]; [|by apply elem_of_nil in He].
  rewrite effect_texts_omap in He.
  apply list_elem_of_omap in He as (li & _ & Hli). split.
  - unfold tag_text in Hli. by apply clean_text_some in Hli as [_ ?].
  - by apply tag_text_fixed with li.
Qed.

Lemma scan_flavor_some itals x :
  scan_flavor itals = Some x ->
  ∃ ital, ital ∈ itals ∧ quotes ital = true
          ∧ clean_text (Some x) = tag_text ital.
Proof.
  induction itals as [|b itals IH]; [done|]. cbn [scan_flavor].
  fold (tag_text b). rewrite flavor_test. destruct (quotes b) eqn:Hq.
  - intros [= <-]. exists b. split; [by left|]. split; [done|].
    by apply flavor_value.
  - intros (ital & Hin & Hq' & Hx)%IH. exists ital. split; [by right|done].
Qed.

Lemma quotes_tag_text ital r :
  quotes ital = true -> tag_text ital = Some r ->
  PyStr.has_char quotation_mark r = true.
Proof.
  unfold quotes, tag_text. intros Hq [-> _]%clean_text_some.
  by rewrite (has_char_tidy _ _ quotation_mark_not_space).
Qed.

(** X12. A flavour text holds a quotation mark, and it is the normalised
    text of one of the italic elements below a paragraph of the cell. *)
Theorem flavor_text_is_quoted (cell : tag) (r : string) :
  flavor_text (extract_description_parts (Some cell)) = Some r ->
  PyStr.has_char quotation_mark r = true
  ∧ ∃ ital, ital ∈ Soup.select_p_i cell ∧ tag_text ital = Some r.
Proof.
  rewrite description_flavor_text.
  destruct (scan_flavor (Soup.select_p_i cell)) as [x|] eqn:Hs; [|done].
  apply scan_flavor_some in Hs as (ital & Hin & Hq & Hx). rewrite Hx.
  intros Hr. split; [by apply quotes_tag_text with ital|]. eauto.
Qed.








Lemma summary_parts_omap children :
  summary_parts children = omap node_text (before_first_list children).
Proof.
  induction children as [|x l IH]; [done|]. cbn [summary_parts before_first_list].
  destruct (is_ul x); [done|]. cbn [omap list_omap]. fold (node_text x).
  unfold node_text at 1 2. rewrite truthy_opt_clean, IH. fold (node_text x).
  by destruct (node_text x).
Qed.

(** X23. Whatever the place of the list in the cell: when the cell holds a
    bulleted list, [effects] holds the normalised texts of the items of
    the first list in document order, and [summary] is made of the
    children of the cell up to the first child that is itself a list, or
    of all children when the list lies inside one of them; the texts of
    that child, items included, are then part of the summary. *)
Theorem description_with_list_anywhere (cell ul : tag) :
  Soup.find "ul" cell = Some ul ->
  summary (extract_description_parts (Some cell))
  = clean_text (Some (PyStr.join " "
                        (omap node_text (before_first_list (tag_children cell)))))
  ∧ effects (extract_description_parts (Some cell))
    = omap tag_text (Soup.find_all "li" ul)
  ∧ ((∀ x, x ∈ tag_children cell -> is_ul x = false) ->
     summary (extract_description_parts (Some cell))
     = clean_text (Some (PyStr.join " " (omap node_text (tag_children cell))))).
Proof.
  intros Hul. unfold extract_description_parts. rewrite Hul. cbn [summary effects].
  rewrite summary_parts_omap, effect_texts_omap. split; [done|]. split; [done|].
  intros Hno.
  assert (before_first_list (tag_children cell) = tag_children cell) as ->; [|done].
  revert Hno. generalize (tag_children cell).
  induction l as [|x l IH]; intros Hno; [done|]. cbn [before_first_list].
  rewrite (Hno x) by by left. f_equal. apply IH. intros y Hy. apply Hno. by right.
Qed.

(** * Further properties: item page *)

Section PageProperties.

Variable api : string -> transport.
Variable lxml : string -> list node.

Lemma parse_item_page_ok_inv title it :
  parse_item_page api lxml title = Ok it ->
  ∃ p, api title = Decoded (Some p) ∧ parse_truthy (Some p) = true
       ∧ it = build_item lxml title p.
Proof.
  unfold parse_item_page, fetch_parse. destruct (api title) as [d|d|o]; [done..|].
  destruct (parse_truthy o) eqn:Ht; [|done]. destruct o as [p|]; [|done].
  intros [= <-]. eauto.
Qed.

Lemma build_item_fields title p :
  item_title (build_item lxml title p) = title
  ∧ wiki_url (build_item lxml title p) = canonical_page_url title
  ∧ categories (build_item lxml title p) = page_categories p
  ∧ rarity (build_item lxml title p) = infer_rarity (page_categories p)
  ∧ icon_url (build_item lxml title p) = (extract_table (lxml (page_html p))).1.1
  ∧ item_description (build_item lxml title p)
    = (extract_table (lxml (page_html p))).1.2
  ∧ cost (build_item lxml title p) = (extract_table (lxml (page_html p))).2.
Proof. unfold build_item. by destruct (extract_table _) as [[i d] c]. Qed.

End PageProperties.

Lemma page_categories_elem p c :
  c ∈ page_categories p ->
  PyStr.startswith "pages using " (PyStr.lower c) = false
  ∧ ∃ x, c = normalize_category_name x.
Proof.
  unfold page_categories. intros [Hf Hc]%list_elem_of_filter.
  split; [by apply negb_true_iff, Is_true_true|].
  apply list_elem_of_omap in Hc as (o & _ & Ho).
  destruct (truthy_opt o); [|done]. injection Ho as <-. eauto.
Qed.

Lemma infer_rarity_some cats r :
  infer_rarity cats = Some r ->
  ∃ c, c ∈ cats ∧ names_rarity c ∧ r = PyStr.strip (PyStr.drop_last 6 c).
Proof.
  induction cats as [|c cats IH]; [done|]. simpl.
  destruct (is_rarity_category c) eqn:Hc.
  - intros [= <-]. exists c. split; [by left|].
    split; [by apply is_rarity_category_spec|done].
  - intros (c' & Hin & Hn & Hr)%IH. exists c'. split; [by right|done].
Qed.

Lemma join_url_empty_or_absolute x :
  join_url x = "" ∨ is_absolute (join_url x) = true.
Proof.
  destruct (decide (x = "")) as [->|Hx]; [by left|]. right.
  by apply join_url_nonempty.
Qed.

Lemma extract_table_icon soup u :
  (extract_table soup).1.1 = Some u -> u = "" ∨ is_absolute u = true.
Proof.
  unfold extract_table. destruct (Soup.select_wikitable soup) as [table|]; [|done].
  destruct (data_row table) as [row|]; [|done]. unfold extract_row. cbn [fst].
  destruct (row_cells row !! 0) as [c0|]; [|done].
  destruct (Soup.find "img" c0) as [img|]; [|done].
  intros [= <-]. apply join_url_empty_or_absolute.
Qed.

(** X14. What every record of [parse_item_page] satisfies: it carries the
    requested title and the URL made from it; none of its categories is a
    maintenance category, holds an underscore or has whitespace at an end;
    its icon URL, when there is one, is empty or absolute; its rarity,
    when there is one, has no whitespace at its ends and comes from one of
    the categories of the record that names a rarity. *)
Theorem item_record_invariants
    (api : string -> transport) (lxml : string -> list node)
    (title : string) (it : item) :
  parse_item_page api lxml title = Ok it ->
  item_title it = title
  ∧ wiki_url it = canonical_page_url title
  ∧ (∀ c, c ∈ categories it ->
          PyStr.startswith "pages using " (PyStr.lower c) = false
          ∧ PyStr.has_char "_" c = false
          ∧ PyStr.strip c = c)
  ∧ (∀ u, icon_url it = Some u -> u = "" ∨ is_absolute u = true)
  ∧ (∀ r, rarity it = Some r ->
          PyStr.strip r = r
          ∧ ∃ c, c ∈ categories it ∧ names_rarity c
                 ∧ r = PyStr.strip (PyStr.drop_last 6 c)).
Proof.
  intros (p & _ & _ & ->)%parse_item_page_ok_inv.
  destruct (build_item_fields lxml title p) as (-> & -> & -> & -> & -> & _).
  split; [done|]. split; [done|]. split; [|split].
  - intros c (Hf & x & ->)%page_categories_elem. split; [done|].
    unfold normalize_category_name. split; [|apply strip_strip].
    by apply has_char_strip, has_char_replace.
  - apply extract_table_icon.
  - intros r (c & Hin & Hn & ->)%infer_rarity_some.
    split; [apply strip_strip|]. eauto.
Qed.

Lemma extract_table_no_row soup table :
  Soup.select_wikitable soup = Some table -> data_row table = None ->
  extract_table soup = (None, no_description, mkParsedCost None None).
Proof. intros Ht Hr. unfold extract_table. by rewrite Ht, Hr. Qed.

Lemma extract_table_row soup table row :
  Soup.select_wikitable soup = Some table -> data_row table = Some row ->
  extract_table soup = extract_row row.
Proof. intros Ht Hr. unfold extract_table. by rewrite Ht, Hr. Qed.

(** X15. A table that lacks the data row, or a data row that lacks cells,
    is no error: without a data row the record has no icon, the empty
    description and no cost; with a data row, the icon is missing when
    the row has no cell, the description is empty when it has fewer than
    two, and the cost is empty when it has fewer than three. *)
Theorem short_table_gives_partial_record
    (api : string -> transport) (lxml : string -> list node)
    (title : string) (p : parse_obj) (table : tag) :
  api title = Decoded (Some p) ->
  parse_truthy (Some p) = true ->
  Soup.select_wikitable (lxml (page_html p)) = Some table ->
  ∃ it, parse_item_page api lxml title = Ok it
        ∧ (data_row table = None ->
           icon_url it = None ∧ item_description it = no_description
           ∧ cost it = mkParsedCost None None)
        ∧ (∀ row, data_row table = Some row ->
             (length (row_cells row) < 1 -> icon_url it = None)
             ∧ (length (row_cells row) < 2 -> item_description it = no_description)
             ∧ (length (row_cells row) < 3 -> cost it = mkParsedCost None None)).
Proof.
  intros Hapi Ht Htable. rewrite (parse_item_page_ok api lxml title p Hapi Ht).
  eexists. split; [done|].
  destruct (build_item_fields lxml title p) as (_ & _ & _ & _ & -> & -> & ->).
  split.
  - intros Hrow. by rewrite (extract_table_no_row _ table Htable Hrow).
  - intros row Hrow. rewrite (extract_table_row _ table row Htable Hrow).
    unfold extract_row. cbn [fst snd]. split; [|split]; intros Hlen.
    + by rewrite (lookup_ge_None_2 (row_cells row) 0) by lia.
    + by rewrite (lookup_ge_None_2 (row_cells row) 1) by lia.
    + by rewrite (lookup_ge_None_2 (row_cells row) 2) by lia.
Qed.

(** ** The data row is never the first row *)

Lemma comes_after_cons nm t x l : comes_after nm t l -> comes_after nm t (x :: l).
Proof. intros (l1 & t' & l2 & -> & Hn & Ht). by exists (x :: l1), t', l2. Qed.

Lemma comes_after_app_l nm t l l' : comes_after nm t l -> comes_after nm t (l ++ l').
Proof.
  intros (l1 & t' & l2 & -> & Hn & Ht). exists l1, t', (l2 ++ l').
  rewrite <- app_assoc. split; [done|]. split; [done|]. apply elem_of_app. by left.
Qed.

Lemma comes_after_app_r nm t l l' : comes_after nm t l' -> comes_after nm t (l ++ l').
Proof.
  intros (l1 & t' & l2 & -> & Hn & Ht). exists (l ++ l1), t', l2.
  by rewrite <- app_assoc.
Qed.

Lemma forest_prev_is_listed l :
  Forall (fun n => prev_is_listed (fun ps pv => Soup.node_tags ps pv n)) l ->
  prev_is_listed (fun ps pv => Soup.forest_tags ps pv l).
Proof.
  induction 1 as [|x l Hx _ IH]; intros ps pv t nm Ht Hp.
  { by apply elem_of_nil in Ht. }
  cbn [Soup.forest_tags] in *. apply elem_of_app in Ht as [Ht|Ht].
  - destruct (Hx ps pv t nm Ht Hp) as [?|Hc]; [by left|]. right.
    by apply comes_after_app_l.
  - destruct (IH ps (Soup.next_prev pv x) t nm Ht Hp) as [Hn|Hc].
    + destruct x as [s|nm0 at_ ch]; [by left|]. right. cbn [Soup.next_prev] in Hn.
      injection Hn as ->. rewrite node_tags_element.
      exists [], (Tag ps pv nm at_ ch),
        (Soup.forest_tags (nm :: ps) None ch
         ++ Soup.forest_tags ps (Soup.next_prev pv (Element nm at_ ch)) l).
      split; [done|]. split; [done|]. apply elem_of_app. by right.
    + right. by apply comes_after_app_r.
Qed.

Lemma node_prev_is_listed n :
  prev_is_listed (fun ps pv => Soup.node_tags ps pv n).
Proof.
  induction n as [s|nm0 at_ ch IH] using node_ind'; intros ps pv t nm Ht Hp.
  { by apply elem_of_nil in Ht. }
  cbn beta in *. rewrite node_tags_element in *.
  apply elem_of_cons in Ht as [->|Ht]; [by left|]. right.
  destruct (forest_prev_is_listed ch IH (nm0 :: ps) None t nm Ht Hp) as [?|Hc];
    [done|]. by apply comes_after_cons.
Qed.

Lemma descendants_prev_is_listed table t nm :
  t ∈ Soup.descendants table -> tag_prev t = Some nm ->
  comes_after nm t (Soup.descendants table).
Proof.
  intros Ht Hp. unfold Soup.descendants in *.
  destruct (forest_prev_is_listed (tag_children table)
              ltac:(apply Forall_forall; intros; apply node_prev_is_listed)
              (tag_name table :: tag_parents table) None t nm Ht Hp); done.
Qed.

(** X16. The data row of a table is a [tr] of the table and never the
    first one in document order; so a table with fewer than two rows has
    no data row. *)
Theorem data_row_is_a_later_row (table row : tag) :
  data_row table = Some row ->
  tag_name row = "tr"
  ∧ (∃ i, Soup.find_all "tr" table !! S i = Some row)
  ∧ 2 ≤ length (Soup.find_all "tr" table).
Proof.
  intros Hrow.
  assert (tag_name row = "tr" ∧ ∃ i, Soup.find_all "tr" table !! S i = Some row)
    as [Hname [i Hi]].
  { unfold data_row in Hrow.
    destruct (Soup.select_tbody_tr_tr table) as [r|] eqn:Hsel.
    - injection Hrow as ->. unfold Soup.select_tbody_tr_tr in Hsel.
      apply head_Some_elem_of, list_elem_of_filter in Hsel as [Hm Hin].
      unfold Soup.is_tbody_tr_tr in Hm.
      apply andb_True in Hm as [[Hn Hp]%andb_True _].
      apply bool_decide_spec in Hn, Hp. split; [done|].
      destruct (descendants_prev_is_listed table row "tr" Hin Hp)
        as (l1 & t' & l2 & Hd & Hn' & Hin2).
      unfold Soup.find_all. rewrite Hd, filter_app, filter_cons, decide_True by done.
      assert (row ∈ filter (fun c => tag_name c = "tr") l2) as Hf.
      { by apply list_elem_of_filter. }
      apply list_elem_of_lookup in Hf as [j Hj].
      exists (length (filter (fun c => tag_name c = "tr") l1) + j).
      rewrite lookup_app_r by lia.
      replace (S (length (filter (fun c => tag_name c = "tr") l1) + j)
               - length (filter (fun c => tag_name c = "tr") l1)) with (S j) by lia.
      done.
    - split; [|by exists 0].
      apply list_elem_of_lookup_2 in Hrow. unfold Soup.find_all in Hrow.
      by apply list_elem_of_filter in Hrow as [? _]. }
  split; [done|]. split; [by exists i|].
  apply lookup_lt_Some in Hi. lia.
Qed.

(** * Further properties: the run *)

Section RunProperties.

Variable api : string -> transport.
Variable lxml : string -> list node.

Lemma scrape_one_ok t :
  page_ok api t = true ->
  ∃ it, scrape_one api lxml ([], []) t = ([it], []) ∧ item_title it = t.
Proof.
  unfold page_ok, scrape_one, parse_item_page, fetch_parse.
  destruct (api t) as [d|d|o]; [done..|]. intros Ht. rewrite Ht.
  destruct o as [p|]; [|done]. eexists. split; [done|].
  by destruct (build_item_fields lxml t p) as (-> & _).
Qed.

Lemma scrape_one_failed t :
  page_ok api t = false ->
  ∃ msg, scrape_one api lxml ([], []) t = ([], [(t, msg)])
         ∧ match api t with
           | Request_failed d => msg = "Request failed: " +:+ d
           | Decode_failed d => msg = "Failed to decode JSON for: " +:+ d
           | Decoded o =>
               parse_truthy o = false ∧ msg = "Missing parse output for page: " +:+ t
           end.
Proof.
  unfold page_ok, scrape_one, parse_item_page, fetch_parse.
  destruct (api t) as [d|d|o]; [by eexists..|]. intros Ht. rewrite Ht.
  by eexists.
Qed.

Lemma scrape_titles titles :
  item_title <$> (scrape api lxml titles).1 = filter (fun t => page_ok api t) titles
  ∧ (scrape api lxml titles).2.*1 = filter (fun t => ¬ page_ok api t) titles
  ∧ length (scrape api lxml titles).1 + length (scrape api lxml titles).2
    = length titles.
Proof.
  induction titles as [|t titles (IHi & IHe & IHl)]; [done|].
  rewrite scrape_cons, !filter_cons. cbn [fst snd].
  rewrite !fmap_app, !length_app, IHi, IHe.
  destruct (page_ok api t) eqn:Hok.
  - destruct (scrape_one_ok t Hok) as (it & -> & Hit). cbn [fst snd].
    rewrite decide_True, decide_False by (rewrite ?Is_true_true; auto).
    simpl. rewrite Hit. split; [done|]. split; [done|]. lia.
  - destruct (scrape_one_failed t Hok) as (msg & -> & _). cbn [fst snd].
    rewrite decide_False, decide_True by (rewrite Is_true_false; auto).
    simpl. split; [done|]. split; [done|]. lia.
Qed.

End RunProperties.

(** X17. In the loop of [main] every title ends in exactly one of the two
    lists, and in the order of the titles: the items are the records of
    the titles for which [parse_item_page] returns one, the titles of the
    items are the titles for which the API has a page, the titles of the
    error records are the others, and the two lists together are as long
    as the list of titles. *)
Theorem scrape_splits_the_titles
    (api : string -> transport) (lxml : string -> list node)
    (titles : list string) :
  (scrape api lxml titles).1
  = omap (fun t => match parse_item_page api lxml t with
                   | Ok it => Some it
                   | Raise _ => None
                   end) titles
  ∧ item_title <$> (scrape api lxml titles).1 = filter (fun t => page_ok api t) titles
  ∧ (scrape api lxml titles).2.*1 = filter (fun t => ¬ page_ok api t) titles
  ∧ length (scrape api lxml titles).1 + length (scrape api lxml titles).2
    = length titles.
Proof.
  split; [|apply scrape_titles].
  induction titles as [|t titles IH]; [done|].
  rewrite scrape_cons. cbn [fst omap list_omap]. rewrite IH. unfold scrape_one.
  by destruct (parse_item_page api lxml t).
Qed.







(** * Further properties: category traversal *)

(** X20. Against an API that serves a category in pages,
    [iter_category_members] (which starts from the empty continuation)
    makes one request for each page, feeds each continuation into the
    next request, and yields the members of all pages in their order;
    when a request fails it has yielded the members of the pages before
    and ends with that failure after one more request.  More turns than
    needed change nothing. *)
Theorem iter_category_members_pages
    (fetch_query : string -> gmap string string -> result query_response)
    (category_title : string) (cont : gmap string string)
    (bs : list (list member)) (o : option exn) :
  paged fetch_query category_title cont bs o ->
  ∀ extra,
    iter_pages fetch_query
      (length bs + failed_request o + extra) category_title cont
    = Some (mkRun (concat bs) o (length bs + failed_request o)).
Proof.
  induction 1 as [cont b Hf|cont e Hf|cont b cont' bs o Hf Hne _ IH]; intros extra.
  - simpl. rewrite Hf. cbn [continue_ categorymembers].
    rewrite bool_decide_true by done. by rewrite app_nil_r.
  - simpl. by rewrite Hf.
  - cbn [length Nat.add iter_pages]. rewrite Hf. cbn [continue_ categorymembers].
    rewrite bool_decide_false by done. rewrite IH. done.
Qed.

(** ** The result as a function of the edges *)

Lemma reachable_mono (w w' : wiki) :
  (∀ c c', subcat w c c' -> subcat w' c c') ->
  ∀ c, reachable w c -> reachable w' c.
Proof.
  intros Hsub c. induction 1 as [|c c' _ IH Hc]; [constructor|].
  apply reach_sub with c; [done|]. by apply Hsub.
Qed.

Lemma page_reachable_mono (w w' : wiki) :
  (∀ c c', subcat w c c' -> subcat w' c c') ->
  (∀ c t, lists_page w c t -> lists_page w' c t) ->
  ∀ t, page_reachable w t -> page_reachable w' t.
Proof.
  intros Hsub Hpage t (c & Hc & Hl). exists c.
  split; [by apply (reachable_mono w w')|by apply Hpage].
Qed.

(** X21. A wiki that lists more gives more: when every member that a
    category lists in [w] is also listed by it in [w'], every title
    discovered in [w] is discovered in [w']. *)
Theorem discover_monotone (w w' : wiki) :
  (∀ c m, m ∈ iter_category_members w c -> m ∈ iter_category_members w' c) ->
  ∃ l l', discover_item_pages w = Some l ∧ discover_item_pages w' = Some l'
          ∧ l ⊆ l'.
Proof.
  intros Hsub.
  destruct (discover_spec w) as (l & Hl & _ & _ & Hel).
  destruct (discover_spec w') as (l' & Hl' & _ & _ & Hel').
  exists l, l'. split; [done|]. split; [done|].
  intros t Ht. apply Hel'. apply Hel in Ht. revert Ht.
  apply page_reachable_mono.
  - intros c c' (m & Hm & Hc). exists m. split; [by apply Hsub|done].
  - intros c t' (m & Hm & Hc). exists m. split; [by apply Hsub|done].
Qed.

Lemma concat_filter {A} (P : A -> Prop) `{!∀ x, Decision (P x)} (bs : list (list A)) :
  concat (filter P <$> bs) = filter P (concat bs).
Proof.
  induction bs as [|b bs IH]; [done|]. rewrite fmap_cons. cbn [concat].
  by rewrite filter_app, IH.
Qed.

Lemma iter_prune w c :
  iter_category_members (prune w) c
  = filter (fun m => counts m) (iter_category_members w c).
Proof.
  unfold iter_category_members, prune. rewrite lookup_fmap.
  destruct (w !! c) as [bs|]; [|done]. simpl. unfold prune_batch.
  apply concat_filter.
Qed.

Lemma cat_member_counts m c : is_cat_member m c -> counts m = true.
Proof.
  intros (Ht & Hne & Hns). unfold counts. rewrite Ht, Hns. simpl.
  apply andb_true_iff. split; [by apply truthy_ne|done].
Qed.

Lemma page_member_counts m t : is_page_member m t -> counts m = true.
Proof.
  intros (Ht & Hne & Hns). unfold counts. rewrite Ht, Hns. simpl.
  apply andb_true_iff. split; [by apply truthy_ne|done].
Qed.

Lemma subcat_prune w c c' : subcat (prune w) c c' <-> subcat w c c'.
Proof.
  unfold subcat. setoid_rewrite iter_prune. setoid_rewrite list_elem_of_filter.
  split.
  - intros (m & [_ Hm] & Hc). eauto.
  - intros (m & Hm & Hc). exists m. split; [|done]. split; [|done].
    by rewrite (cat_member_counts m c' Hc).
Qed.

Lemma lists_page_prune w c t : lists_page (prune w) c t <-> lists_page w c t.
Proof.
  unfold lists_page. setoid_rewrite iter_prune. setoid_rewrite list_elem_of_filter.
  split.
  - intros (m & [_ Hm] & Hc). eauto.
  - intros (m & Hm & Hc). exists m. split; [|done]. split; [|done].
    by rewrite (page_member_counts m t Hc).
Qed.

(** X22. Members without a title, with the empty title or of a namespace
    other than 14 and 0 never change the result: the wiki without them
    gives the same list. *)
Theorem discover_ignores_other_members (w : wiki) :
  discover_item_pages (prune w) = discover_item_pages w.
Proof.
  destruct (discover_spec w) as (l & Hl & Hnd & Hs & Hel).
  destruct (discover_spec (prune w)) as (l' & Hl' & Hnd' & Hs' & Hel').
  rewrite Hl, Hl'. f_equal. apply sorted_lists_unique; try done.
  intros t. rewrite Hel, Hel'. split.
  - apply page_reachable_mono.
    + intros c c'. apply subcat_prune.
    + intros c t'. apply lists_page_prune.
  - apply page_reachable_mono.
    + intros c c'. apply subcat_prune.
    + intros c t'. apply lists_page_prune.
Qed.

(** * Examples *)

Module Examples.
Import Fixtures.

(** Python string operations. *)
Example split_words : PyStr.split "  Very   Rare Items " = ["Very"; "Rare"; "Items"].
Proof. vm_compute. reflexivity. Qed.

Example strip_both : PyStr.strip "  Rare Items  " = "Rare Items".
Proof. vm_compute. reflexivity. Qed.

Example lower_mixed : PyStr.lower "Very RARE Items" = "very rare items".
Proof. vm_compute. reflexivity. Qed.

Example contains_inside : PyStr.contains "shards" "iridescent shards icon" = true.
Proof. vm_compute. reflexivity. Qed.

Example int_of_digits : PyStr.int "6000" = 6000%N.
Proof. vm_compute. reflexivity. Qed.

Example normalize_name : normalize_category_name "Very_Rare_Items" = "Very Rare Items".
Proof. vm_compute. reflexivity. Qed.

Example join_url_relative :
  join_url "/images/toolbox.png" = "https://deadbydaylight.wiki.gg/images/toolbox.png".
Proof. vm_compute. reflexivity. Qed.

(** The amount pattern takes the commas that follow the digits. *)
Example amount_match :
  Re.search _AMOUNT_RE "Cost: 6,000 Bloodpoints" = Some ["6"; ",000"].
Proof. vm_compute. reflexivity. Qed.

(** Cost cells of section 8 of the specification. *)
Example cost_no_hint :
  parse_cost_cell (Some (cell [txt "Cost: 6,000"]))
  = mkParsedCost (Some 6000%N) None.
Proof. vm_compute. reflexivity. Qed.

Example cost_bloodpoints :
  parse_cost_cell
    (Some (cell [Element "img" {[ "alt" := "Bloodpoints icon" ]} []; txt "5,500"]))
  = mkParsedCost (Some 5500%N) (Some "bloodpoints").
Proof. vm_compute. reflexivity. Qed.

Example description_luck :
  extract_description_parts (Some luck_cell)
  = mkDescription (Some "Boosts your luck.") ["Item one"; "Item two"]
      (Some (quoted "Fortune favors the bold."))
      (Some ("Boosts your luck. Item one Item two "
             +:+ quoted "Fortune favors the bold.")).
Proof. vm_compute. reflexivity. Qed.

Example rarity_very_rare :
  infer_rarity ["Items"; "Very Rare Items"; "Survivor Items"] = Some "Very Rare".
Proof. vm_compute. reflexivity. Qed.

Example url_of_title :
  canonical_page_url "Med-Kit (rare)"
  = "https://deadbydaylight.wiki.gg/wiki/Med-Kit_%28rare%29".
Proof. vm_compute. reflexivity. Qed.

Example discover_cyclic :
  discover_item_pages cyclic = Some ["Flashlight"; "Med-Kit"; "Toolbox"].
Proof. vm_compute. reflexivity. Qed.

Example enumerated_cyclic :
  enumerated <$> loop (turns cyclic) cyclic init
  = Some ["Category:Items"; "Category:A"; "Category:B"].
Proof. vm_compute. reflexivity. Qed.

(** The run over three titles, one of them without a page. *)
Example scrape_three :
  let '(its, errs) :=
    scrape fixture_api fixture_lxml ["Ghost"; "Plain"; "Toolbox"] in
  (item_title <$> its, icon_url <$> its, rarity <$> its, categories <$> its, errs)
  = (["Plain"; "Toolbox"], [None; Some ""], [None; Some "Rare"],
     [["Items"]; ["Items"; "Rare Items"]],
     [("Ghost", "Missing parse output for page: Ghost")]).
Proof. vm_compute. reflexivity. Qed.

Example offline_title :
  parse_item_page fixture_api fixture_lxml "Offline"
  = Raise (FetchError "Request failed: timed out").
Proof. vm_compute. reflexivity. Qed.

(** Whitespace of every kind is collapsed: tab, line feed and no-break
    space here. *)
Example clean_text_whitespace :
  clean_text (Some (String (ascii_of_N 9) "Heals"
                    +:+ String (ascii_of_N 10) (String (ascii_of_N 160) "faster .")))
  = Some "Heals faster.".
Proof. vm_compute. reflexivity. Qed.

Example clean_text_blank : clean_text (Some "   ") = None.
Proof. vm_compute. reflexivity. Qed.

(** A table without [tbody]: the data row is the second [tr]. *)
Example data_row_of_bare_table :
  tag_children <$> data_row bare_table = Some toolbox_cells.
Proof. vm_compute. reflexivity. Qed.

(** A list inside a child of the cell does not end the summary: the loop
    over the children meets no list and takes in every child. *)
Example summary_with_nested_list :
  extract_description_parts (Some nested_list_cell)
  = mkDescription (Some "Boosts your luck. Heals faster Lasts 60 seconds.")
      ["Heals faster"] None
      (Some "Boosts your luck. Heals faster Lasts 60 seconds.").
Proof. vm_compute. reflexivity. Qed.

(** The run of [main] on the cyclic wiki, with a limit of two titles. *)
Example main_limited :
  (fun pl => (count pl, item_title <$> items pl, errors pl))
    <$> main fixture_api fixture_lxml cyclic 2
  = Some (0, [], [("Flashlight", "Missing parse output for page: Flashlight");
                  ("Med-Kit", "Missing parse output for page: Med-Kit")]).
Proof. vm_compute. reflexivity. Qed.

(** Members that do not count leave no trace. *)
Example discover_noisy :
  discover_item_pages MoreFixtures.noisy = Some ["Toolbox"].
Proof. vm_compute. reflexivity. Qed.

Example discover_larger :
  discover_item_pages MoreFixtures.larger = Some ["Key"; "Map"; "Toolbox"].
Proof. vm_compute. reflexivity. Qed.

(** A data row with one cell: an icon with an absolute URL and nothing
    else. *)
Example one_cell_row :
  (fun it => (icon_url it, item_description it, cost it, rarity it))
    <$> match parse_item_page MoreFixtures.short_api MoreFixtures.short_lxml "Key" with
        | Ok it => Some it
        | Raise _ => None
        end
  = Some (Some "https://deadbydaylight.wiki.gg/images/key.png", no_description,
          mkParsedCost None None, Some "Uncommon").
Proof. vm_compute. reflexivity. Qed.

(** An empty parse object counts as no parse result. *)
Example empty_parse_object :
  parse_item_page MoreFixtures.short_api MoreFixtures.short_lxml "Other"
  = Raise (FetchError "Missing parse output for page: Other").
Proof. vm_compute. reflexivity. Qed.

End Examples.

(** * The theorems at concrete inputs *)

Lemma cyclic_same_edges c m :
  m ∈ iter_category_members Fixtures.cyclic_reordered c
  <-> m ∈ iter_category_members Fixtures.cyclic c.
Proof.
  unfold iter_category_members, Fixtures.cyclic, Fixtures.cyclic_reordered.
  destruct (decide (c = "Category:Items")) as [->|H1].
  { rewrite !lookup_insert_eq. simpl. set_solver. }
  rewrite !(lookup_insert_ne _ "Category:Items") by done.
  destruct (decide (c = "Category:A")) as [->|H2].
  { rewrite !lookup_insert_eq. simpl. set_solver. }
  rewrite !(lookup_insert_ne _ "Category:A") by done.
  destruct (decide (c = "Category:B")) as [->|H3].
  { rewrite !lookup_insert_eq. simpl. set_solver. }
  rewrite !(lookup_insert_ne _ "Category:B") by done.
  done.
Defined.

Lemma discover_sorted_unique_order_free_witness :
  discover_item_pages Fixtures.cyclic_reordered
  = Some ["Flashlight"; "Med-Kit"; "Toolbox"].
Proof.
  destruct (discover_sorted_unique_order_free Fixtures.cyclic)
    as (l & Hl & _ & _ & _ & Hfree).
  rewrite (Hfree Fixtures.cyclic_reordered (fun c _ m => cyclic_same_edges c m)).
  rewrite <- Hl. vm_compute. reflexivity.
Defined.

Lemma rarity_from_first_items_category_witness :
  infer_rarity (["Items"] ++ "Very Rare Items" :: ["Survivor Items"])
  = Some "Very Rare".
Proof.
  apply (proj1 rarity_from_first_items_category
           ["Items"] "Very Rare Items" ["Survivor Items"] "Very Rare" " Items").
  - intros x ->%list_elem_of_singleton [_ Hne]. apply Hne. vm_compute. reflexivity.
  - reflexivity.
  - vm_compute. reflexivity.
  - vm_compute. discriminate.
  - vm_compute. reflexivity.
Defined.

Lemma parse_cost_cell_contract_witness :
  currency (parse_cost_cell (Some Fixtures.bloodpoints_cell)) = Some "bloodpoints"
  ∧ amount (parse_cost_cell (Some Fixtures.bloodpoints_cell))
    = Some (PyStr.int (PyStr.remove_char "," "5,500")).
Proof.
  destruct parse_cost_cell_contract as (_ & Himg & _ & _ & _ & Hamount & _).
  split.
  - apply (Himg Fixtures.bloodpoints_cell []
             (Tag ["td"; "tr"; "tbody"; "table"] None "img"
                  {[ "alt" := "Bloodpoints icon" ]} []) []).
    + vm_compute. reflexivity.
    + intros x Hx. by apply elem_of_nil in Hx.
    + vm_compute. reflexivity.
  - apply (Hamount Fixtures.bloodpoints_cell "" "5,500" "").
    + vm_compute. reflexivity.
    + reflexivity.
    + reflexivity.
    + vm_compute. reflexivity.
    + reflexivity.
Defined.

Lemma description_summary_and_effects_witness :
  ∃ ul, Soup.find "ul" Fixtures.luck_cell = Some ul
        ∧ tag_children ul
          = [Fixtures.el "li" [Fixtures.txt "Item one"];
             Fixtures.el "li" [Fixtures.txt "Item two"]]
        ∧ summary (extract_description_parts (Some Fixtures.luck_cell))
          = clean_text (Some (PyStr.join " "
                                (omap node_text [Fixtures.txt "Boosts your luck."])))
        ∧ effects (extract_description_parts (Some Fixtures.luck_cell))
          = omap tag_text (Soup.find_all "li" ul).
Proof.
  apply (proj1 (description_summary_and_effects Fixtures.luck_cell)
           [Fixtures.txt "Boosts your luck."] ∅ _
           [Fixtures.el "p"
              [Fixtures.el "i"
                 [Fixtures.txt (Fixtures.quoted "Fortune favors the bold.")]]]).
  - reflexivity.
  - reflexivity.
Defined.

Lemma description_flavor_and_raw_text_witness :
  flavor_text (extract_description_parts (Some Fixtures.luck_cell))
  = tag_text (Tag ["p"; "td"; "tr"; "tbody"; "table"] None "i" ∅
                [Fixtures.txt (Fixtures.quoted "Fortune favors the bold.")]).
Proof.
  destruct (description_flavor_and_raw_text Fixtures.luck_cell) as (_ & Hflavor & _).
  apply (Hflavor [] _ []).
  - vm_compute. reflexivity.
  - intros x Hx. by apply elem_of_nil in Hx.
  - vm_compute. reflexivity.
Defined.

Lemma page_without_table_gives_record_witness :
  parse_item_page Fixtures.fixture_api Fixtures.fixture_lxml "Plain"
  = Ok (mkItem "Plain" (canonical_page_url "Plain")
          (infer_rarity (page_categories Fixtures.plain_parse))
          None (mkParsedCost None None) (mkDescription None [] None None)
          (page_categories Fixtures.plain_parse)).
Proof.
  apply (page_without_table_gives_record Fixtures.fixture_api Fixtures.fixture_lxml
           "Plain" Fixtures.plain_parse).
  - reflexivity.
  - reflexivity.
  - intros t Ht. vm_compute in Ht.
    apply elem_of_cons in Ht as [->|Ht]; [reflexivity|].
    by apply elem_of_nil in Ht.
Defined.

Lemma missing_parse_raises_and_is_recorded_witness :
  scrape Fixtures.fixture_api Fixtures.fixture_lxml (["Plain"] ++ "Ghost" :: ["Toolbox"])
  = ((scrape Fixtures.fixture_api Fixtures.fixture_lxml ["Plain"]).1
     ++ (scrape Fixtures.fixture_api Fixtures.fixture_lxml ["Toolbox"]).1,
     (scrape Fixtures.fixture_api Fixtures.fixture_lxml ["Plain"]).2
     ++ ("Ghost", "Missing parse output for page: " +:+ "Ghost")
        :: (scrape Fixtures.fixture_api Fixtures.fixture_lxml ["Toolbox"]).2).
Proof.
  apply (proj2 (missing_parse_raises_and_is_recorded
                  Fixtures.fixture_api Fixtures.fixture_lxml)
           ["Plain"] "Ghost" ["Toolbox"] None).
  - reflexivity.
  - reflexivity.
Defined.

Lemma icon_without_src_is_empty_string_witness :
  ∃ it, parse_item_page Fixtures.fixture_api Fixtures.fixture_lxml "Toolbox" = Ok it
        ∧ icon_url it = Some "".
Proof.
  destruct (icon_without_src_is_empty_string
              Fixtures.fixture_api Fixtures.fixture_lxml "Toolbox" Fixtures.toolbox_parse
              (Tag ["div"] None "table" {[ "class" := "wikitable sortable" ]}
                 Fixtures.toolbox_body)
              (Tag ["tbody"; "table"; "div"] (Some "tr") "tr" ∅ Fixtures.toolbox_cells)
              (Tag ["tr"; "tbody"; "table"; "div"] None "td" ∅
                 [Element "img" {[ "alt" := "Toolbox" ]} []])
              [ Tag ["tr"; "tbody"; "table"; "div"] (Some "td") "td" ∅
                  [Fixtures.txt "A sturdy toolbox."];
                Tag ["tr"; "tbody"; "table"; "div"] (Some "td") "td" ∅
                  [Fixtures.txt "Cost: 6,000"] ])
    as (_ & it & Hit & Hicon & _).
  - reflexivity.
  - reflexivity.
  - vm_compute. reflexivity.
  - vm_compute. reflexivity.
  - vm_compute. reflexivity.
  - exists it. split; [exact Hit|].
    apply (Hicon (Tag ["td"; "tr"; "tbody"; "table"; "div"] None "img"
                    {[ "alt" := "Toolbox" ]} [])).
    + vm_compute. reflexivity.
    + left. vm_compute. reflexivity.
Defined.

(** * The further properties at concrete inputs *)

Lemma clean_text_keeps_visible_characters_witness :
  nonspace "Heals faster, grants Exposure!"
  = nonspace "  Heals   faster ,  grants Exposure !  ".
Proof.
  apply (proj1 (clean_text_keeps_visible_characters
                  "  Heals   faster ,  grants Exposure !  ")).
  vm_compute. reflexivity.
Defined.

Lemma clean_text_shape_witness :
  PyStr.strip "Heals faster, grants Exposure!" = "Heals faster, grants Exposure!".
Proof.
  apply (clean_text_shape "  Heals   faster ,  grants Exposure !  ").
  vm_compute. reflexivity.
Defined.

Lemma join_url_absolute_witness :
  is_absolute (join_url "images/toolbox.png") = true.
Proof.
  apply (proj1 join_url_absolute "images/toolbox.png"). discriminate.
Defined.

Lemma canonical_page_url_same_iff_witness :
  canonical_page_url "Very Rare_Med Kit" = canonical_page_url "Very_Rare Med_Kit".
Proof.
  apply (proj2 (canonical_page_url_same_iff "Very Rare_Med Kit" "Very_Rare Med_Kit")).
  reflexivity.
Defined.

Lemma currency_is_one_of_three_witness :
  "bloodpoints" ∈ ["bloodpoints"; "iridescent_shards"; "auric_cells"].
Proof.
  apply (currency_is_one_of_three (Some Fixtures.bloodpoints_cell)).
  vm_compute. reflexivity.
Defined.

Lemma amount_digits_well_formed_witness :
  PyStr.remove_char "," (Re.text_from 0 ["6"; ",000"]) ≠ ""
  ∧ all_chars PyStr.is_digit (PyStr.remove_char "," (Re.text_from 0 ["6"; ",000"])) = true.
Proof.
  apply (amount_digits_well_formed "Cost: 6,000 Bloodpoints").
  vm_compute. reflexivity.
Defined.

Lemma amount_absent_iff_no_digit_witness :
  amount (parse_cost_cell (Some (Fixtures.cell [Fixtures.txt "Free"]))) = None.
Proof.
  apply (proj2 (amount_absent_iff_no_digit (Fixtures.cell [Fixtures.txt "Free"]))).
  vm_compute. reflexivity.
Defined.

Lemma flavor_text_is_quoted_witness :
  PyStr.has_char quotation_mark (Fixtures.quoted "Fortune favors the bold.") = true.
Proof.
  apply (flavor_text_is_quoted Fixtures.luck_cell). vm_compute. reflexivity.
Defined.


Lemma description_texts_normalised_witness :
  "Item one" ≠ "" ∧ clean_text (Some "Item one") = Some "Item one".
Proof.
  apply (description_texts_normalised (Some Fixtures.luck_cell)).
  vm_compute. by left.
Defined.

Lemma item_record_invariants_witness :
  item_title (build_item Fixtures.fixture_lxml "Toolbox" Fixtures.toolbox_parse)
  = "Toolbox".
Proof.
  apply (item_record_invariants Fixtures.fixture_api Fixtures.fixture_lxml).
  reflexivity.
Defined.

Lemma short_table_gives_partial_record_witness :
  ∃ it, parse_item_page MoreFixtures.short_api MoreFixtures.short_lxml "Header" = Ok it
        ∧ icon_url it = None ∧ item_description it = no_description
        ∧ cost it = mkParsedCost None None.
Proof.
  destruct (short_table_gives_partial_record
              MoreFixtures.short_api MoreFixtures.short_lxml "Header"
              (MoreFixtures.short_parse "<header>")
              (Tag [] None "table" {[ "class" := "wikitable" ]}
                 [Fixtures.el "tbody"
                    [Fixtures.el "tr" [Fixtures.el "th" [Fixtures.txt "Icon"]]]]))
    as (it & Hit & Hnone & _).
  - reflexivity.
  - reflexivity.
  - vm_compute. reflexivity.
  - exists it. split; [exact Hit|]. apply Hnone. vm_compute. reflexivity.
Defined.

Lemma data_row_is_a_later_row_witness :
  tag_name (Tag ["tbody"; "table"; "div"] (Some "tr") "tr" ∅ Fixtures.toolbox_cells)
  = "tr".
Proof.
  apply (data_row_is_a_later_row
           (Tag ["div"] None "table" {[ "class" := "wikitable sortable" ]}
              Fixtures.toolbox_body)).
  vm_compute. reflexivity.
Defined.


Lemma three_pages_paged :
  paged MoreFixtures.three_pages "Category:Items" ∅
    [ [Fixtures.page "Flashlight"; Fixtures.page "Key"];
      [Fixtures.page "Map"];
      [Fixtures.page "Med-Kit"; Fixtures.page "Toolbox"] ] None.
Proof.
  apply (paged_more _ _ ∅ _ (MoreFixtures.token "2")); [reflexivity| |].
  { intros H. apply (f_equal (fun m => m !! "cmcontinue")) in H. discriminate. }
  apply (paged_more _ _ _ _ (MoreFixtures.token "3")); [reflexivity| |].
  { intros H. apply (f_equal (fun m => m !! "cmcontinue")) in H. discriminate. }
  apply paged_last. reflexivity.
Defined.

Lemma iter_category_members_pages_witness :
  iter_pages MoreFixtures.three_pages 3 "Category:Items" ∅
  = Some (mkRun [Fixtures.page "Flashlight"; Fixtures.page "Key"; Fixtures.page "Map";
                 Fixtures.page "Med-Kit"; Fixtures.page "Toolbox"] None 3).
Proof.
  apply (iter_category_members_pages MoreFixtures.three_pages "Category:Items"
           ∅ _ None three_pages_paged 0).
Defined.

Lemma description_with_list_anywhere_witness :
  summary (extract_description_parts (Some Fixtures.nested_list_cell))
  = clean_text (Some (PyStr.join " "
                        (omap node_text (tag_children Fixtures.nested_list_cell)))).
Proof.
  apply (description_with_list_anywhere Fixtures.nested_list_cell
           (Tag ["div"; "td"; "tr"; "tbody"; "table"] None "ul" ∅
              [Fixtures.el "li" [Fixtures.txt "Heals faster"]])).
  - vm_compute. reflexivity.
  - intros x Hx. vm_compute in Hx.
    repeat (apply elem_of_cons in Hx as [->|Hx]; [reflexivity|]).
    by apply elem_of_nil in Hx.
Defined.

Lemma smaller_in_larger c m :
  m ∈ iter_category_members MoreFixtures.smaller c ->
  m ∈ iter_category_members MoreFixtures.larger c.
Proof.
  unfold iter_category_members, MoreFixtures.smaller, MoreFixtures.larger.
  destruct (decide (c = "Category:Items")) as [->|H1].
  { rewrite !lookup_insert_eq. simpl. set_solver. }
  rewrite (lookup_insert_ne _ "Category:Items") by done.
  rewrite lookup_empty. simpl. by intros ?%elem_of_nil.
Defined.

Lemma discover_monotone_witness :
  ∃ l l', discover_item_pages MoreFixtures.smaller = Some l
          ∧ discover_item_pages MoreFixtures.larger = Some l' ∧ l ⊆ l'.
Proof.
  apply (discover_monotone MoreFixtures.smaller MoreFixtures.larger).
  apply smaller_in_larger.
Defined.
